(** * loki.rules.kubernetes: the controller lifecycle of [rules.go]

    A shallow embedding of [internal/component/loki/rules/kubernetes/rules.go]:
    the [Component] struct, [NewComponent], [init], [startup], [shutdown],
    [Update] and the two loops of [Run].  Go's channels, its panics and the
    calls the component makes on its collaborators (work queue, informer
    factories, Loki client, backoff, metrics) are explicit: channels live in
    a small heap, a panic is a result of its own, and every collaborator call
    is appended to a trace. *)

From Stdlib Require Import ZArith Lia.
From stdpp Require Import base option list strings.

Open Scope Z_scope.

(** ** Go values *)

(** A Go [error], identified by its message; [nil] is [None] in an
    [option error]. *)
Definition error := string.

(** [fmt.Errorf(prefix + "%w", err)]. *)
Definition Errorf (prefix : string) (err : error) : error := prefix +:+ err.

(** [time.Duration], in nanoseconds. *)
Definition Duration := Z.
Definition Second : Duration := 1000000000.

(** [backoff.Config] of dskit. *)
Record BackoffConfig := {
  MinBackoff : Duration;
  MaxBackoff : Duration;
  MaxRetries : Z;
}.

(** The configuration [Run] passes to [backoff.New]. *)
Definition startupBackoffConfig : BackoffConfig :=
  {| MinBackoff := 1 * Second;
     MaxBackoff := 10 * Second;
     MaxRetries := 0 (* infinite retries *) |}.

(** Modelled from the spec: [commonK8s.Event] and the event types
    (common/kubernetes and events.go are not among the sources).  "Event: a
    tagged union describing why reconciliation work is needed - full periodic
    sync or a specific namespace/resource changed", carrying a key. *)
Inductive EventType := eventTypeResourceChanged | eventTypeSyncLoki.

Record Event := {
  Typ : EventType;
  ObjectKey : string;
}.

(** [commonK8s.Event{Typ: eventTypeSyncLoki}]: the key keeps its zero value. *)
Definition syncLokiEvent : Event := {| Typ := eventTypeSyncLoki; ObjectKey := "" |}.

(** [component.Health]. *)
Inductive Health :=
| HealthTypeUnknown
| HealthTypeHealthy
| HealthTypeUnhealthy (message : string).

(** What the component does to the outside, in program order. Queues and
    stop channels are named by the number they were created with; [None]
    is Go's [nil]. *)
Inductive Action :=
| LogInfo (msg : string)
| LogError (msg : string) (err : error)
| NewQueue (q : nat)
| MakeStopChan (ch : nat)
| NamespaceAddEventHandler (q : option nat)
| NamespaceFactoryStart (ch : option nat)
| NamespaceWaitForCacheSync (ch : option nat)
| RuleAddEventHandler (q : option nat)
| RuleFactoryStart (ch : option nat)
| RuleWaitForCacheSync (ch : option nat)
| SyncLoki
| GoEventLoop (q : option nat)
| CloseStopChan (ch : nat)
| QueueShutDownWithDrain (q : nat)
| QueueAdd (q : nat) (e : Event)
| ConfigUpdatesTotalInc
| TickerReset (d : Duration)
| ReportUnhealthy (err : error)
| BackoffWait (cfg : BackoffConfig) (numRetries : nat)
| SendErr (errChan : nat) (r : option error).

#[global] Instance EventType_eq_dec : EqDecision EventType.
Proof. solve_decision. Defined.
#[global] Instance Event_eq_dec : EqDecision Event.
Proof. solve_decision. Defined.
#[global] Instance BackoffConfig_eq_dec : EqDecision BackoffConfig.
Proof. solve_decision. Defined.
#[global] Instance Action_eq_dec : EqDecision Action.
Proof. solve_decision. Defined.

Section Controller.

(** Types of the collaborators; the component only stores and passes them. *)
Context {RestConfig K8sClient PromClient LokiClient : Type}.
Context {HTTPClientConfig PromHTTPClientConfig : Type}.
Context {LabelSelector Selector RuleGroupsByNamespace : Type}.

(** [Arguments] (types.go), with the fields rules.go reads. *)
Record Arguments := {
  Address : string;
  TenantID : string;
  UseLegacyRoutes : bool;
  HTTPClientConfig_ : HTTPClientConfig;
  SyncInterval : Duration;
  RuleSelector : LabelSelector;
  RuleNamespaceSelector : LabelSelector;
}.

(** [lokiClient.Config] as [init] fills it in. *)
Record LokiConfig := {
  ID : string;
  LokiAddress : string;
  LokiUseLegacyRoutes : bool;
  LokiHTTPClientConfig : PromHTTPClientConfig;
}.

(** [ConfigUpdate]: the new arguments and the caller's response channel. *)
Record ConfigUpdate := {
  cu_args : Arguments;
  cu_err : nat;
}.

(** The [Component] struct. [log], [opts] and [healthMut] carry no state
    of the lifecycle; [configUpdates] is the channel [Run] receives its
    [Msg]s from; [metrics] is the one counter [Run] touches. *)
Record Component := {
  args : Arguments;
  lokiClient : option LokiClient;
  k8sClient : option K8sClient;
  promClient : option PromClient;
  ruleLister : option nat;
  ruleInformer : option nat;
  namespaceLister : option nat;
  namespaceInformer : option nat;
  informerStopChan : option nat;
  ticker : Duration;
  queue : option nat;
  namespaceSelector : option Selector;
  ruleSelector : option Selector;
  currentState : RuleGroupsByNamespace;
  configUpdatesTotal : nat;
  health : Health;
}.

(** The program state: the component, the heap of stop channels (for each
    channel made so far, whether it is closed), the number of queues made,
    how often [init] and [startup] were entered, and the trace. *)
Record State := {
  comp : Component;
  chans : list bool;
  queues : nat;
  inits : nat;
  startups : nat;
  trace : list Action;
}.

(** *** Field updates *)

Definition with_comp (f : Component -> Component) (s : State) : State :=
  let (c, ch, q, i, n, t) := s in Build_State (f c) ch q i n t.
Definition with_chans (f : list bool -> list bool) (s : State) : State :=
  let (c, ch, q, i, n, t) := s in Build_State c (f ch) q i n t.
Definition with_queues (f : nat -> nat) (s : State) : State :=
  let (c, ch, q, i, n, t) := s in Build_State c ch (f q) i n t.
Definition with_inits (f : nat -> nat) (s : State) : State :=
  let (c, ch, q, i, n, t) := s in Build_State c ch q (f i) n t.
Definition with_startups (f : nat -> nat) (s : State) : State :=
  let (c, ch, q, i, n, t) := s in Build_State c ch q i (f n) t.
Definition emit (a : Action) (s : State) : State :=
  let (c, ch, q, i, n, t) := s in Build_State c ch q i n (t ++ [a]).

Definition set_args (v : Arguments) (c : Component) : Component :=
  let (_, a2, a3, a4, a5, a6, a7, a8, a9, a10, a11, a12, a13, a14, a15, a16) := c in
  Build_Component v a2 a3 a4 a5 a6 a7 a8 a9 a10 a11 a12 a13 a14 a15 a16.
Definition set_lokiClient (v : option LokiClient) (c : Component) : Component :=
  let (a1, _, a3, a4, a5, a6, a7, a8, a9, a10, a11, a12, a13, a14, a15, a16) := c in
  Build_Component a1 v a3 a4 a5 a6 a7 a8 a9 a10 a11 a12 a13 a14 a15 a16.
Definition set_k8sClient (v : option K8sClient) (c : Component) : Component :=
  let (a1, a2, _, a4, a5, a6, a7, a8, a9, a10, a11, a12, a13, a14, a15, a16) := c in
  Build_Component a1 a2 v a4 a5 a6 a7 a8 a9 a10 a11 a12 a13 a14 a15 a16.
Definition set_promClient (v : option PromClient) (c : Component) : Component :=
  let (a1, a2, a3, _, a5, a6, a7, a8, a9, a10, a11, a12, a13, a14, a15, a16) := c in
  Build_Component a1 a2 a3 v a5 a6 a7 a8 a9 a10 a11 a12 a13 a14 a15 a16.
Definition set_ruleWatch (v : option nat) (c : Component) : Component :=
  let (a1, a2, a3, a4, _, _, a7, a8, a9, a10, a11, a12, a13, a14, a15, a16) := c in
  Build_Component a1 a2 a3 a4 v v a7 a8 a9 a10 a11 a12 a13 a14 a15 a16.
Definition set_namespaceWatch (v : option nat) (c : Component) : Component :=
  let (a1, a2, a3, a4, a5, a6, _, _, a9, a10, a11, a12, a13, a14, a15, a16) := c in
  Build_Component a1 a2 a3 a4 a5 a6 v v a9 a10 a11 a12 a13 a14 a15 a16.
Definition set_informerStopChan (v : option nat) (c : Component) : Component :=
  let (a1, a2, a3, a4, a5, a6, a7, a8, _, a10, a11, a12, a13, a14, a15, a16) := c in
  Build_Component a1 a2 a3 a4 a5 a6 a7 a8 v a10 a11 a12 a13 a14 a15 a16.
Definition set_ticker (v : Duration) (c : Component) : Component :=
  let (a1, a2, a3, a4, a5, a6, a7, a8, a9, _, a11, a12, a13, a14, a15, a16) := c in
  Build_Component a1 a2 a3 a4 a5 a6 a7 a8 a9 v a11 a12 a13 a14 a15 a16.
Definition set_queue (v : option nat) (c : Component) : Component :=
  let (a1, a2, a3, a4, a5, a6, a7, a8, a9, a10, _, a12, a13, a14, a15, a16) := c in
  Build_Component a1 a2 a3 a4 a5 a6 a7 a8 a9 a10 v a12 a13 a14 a15 a16.
Definition set_namespaceSelector (v : option Selector) (c : Component) : Component :=
  let (a1, a2, a3, a4, a5, a6, a7, a8, a9, a10, a11, _, a13, a14, a15, a16) := c in
  Build_Component a1 a2 a3 a4 a5 a6 a7 a8 a9 a10 a11 v a13 a14 a15 a16.
Definition set_ruleSelector (v : option Selector) (c : Component) : Component :=
  let (a1, a2, a3, a4, a5, a6, a7, a8, a9, a10, a11, a12, _, a14, a15, a16) := c in
  Build_Component a1 a2 a3 a4 a5 a6 a7 a8 a9 a10 a11 a12 v a14 a15 a16.
Definition set_currentState (v : RuleGroupsByNamespace) (c : Component) : Component :=
  let (a1, a2, a3, a4, a5, a6, a7, a8, a9, a10, a11, a12, a13, _, a15, a16) := c in
  Build_Component a1 a2 a3 a4 a5 a6 a7 a8 a9 a10 a11 a12 a13 v a15 a16.
Definition inc_configUpdatesTotal (c : Component) : Component :=
  let (a1, a2, a3, a4, a5, a6, a7, a8, a9, a10, a11, a12, a13, a14, n, a16) := c in
  Build_Component a1 a2 a3 a4 a5 a6 a7 a8 a9 a10 a11 a12 a13 a14 (S n) a16.
Definition set_health (v : Health) (c : Component) : Component :=
  let (a1, a2, a3, a4, a5, a6, a7, a8, a9, a10, a11, a12, a13, a14, a15, _) := c in
  Build_Component a1 a2 a3 a4 a5 a6 a7 a8 a9 a10 a11 a12 a13 a14 a15 v.

(** ** Computations: state passing, with Go's panic as a second outcome *)

Inductive Result (A : Type) :=
| Ok (a : A) (s : State)
| Panic (msg : string) (s : State).
Arguments Ok {A} a s.
Arguments Panic {A} msg s.

Definition M (A : Type) := State -> Result A.

Definition ret {A} (a : A) : M A := fun s => Ok a s.
Definition bind {A B} (m : M A) (k : A -> M B) : M B :=
  fun s => match m s with
           | Ok a s' => k a s'
           | Panic msg s' => Panic msg s'
           end.
Definition panic {A} (msg : string) : M A := fun s => Panic msg s.
Definition get : M State := fun s => Ok s s.
Definition modify (f : State -> State) : M unit := fun s => Ok tt (f s).
Definition act (a : Action) : M unit := modify (emit a).
Definition update (f : Component -> Component) : M unit := modify (with_comp f).

Declare Scope go_scope.
Delimit Scope go_scope with go.
Bind Scope go_scope with M.
Notation "x <- m ;; k" := (bind m (fun x => k))
  (at level 20, m at level 99, k at level 200, only parsing) : go_scope.
Notation "m ;; k" := (bind m (fun _ => k))
  (at level 100, k at level 200, only parsing, right associativity) : go_scope.
Local Open Scope go_scope.

(** [if err != nil { return wrap(err) }], then the rest of the function. *)
Definition if_err (err : option error) (wrap : error -> error)
    (k : M (option error)) : M (option error) :=
  match err with
  | Some e => ret (Some (wrap e))
  | None => k
  end.

(** ** The collaborators

    Each returns what the Go call returns, value and error side by side.
    The calls [init] makes are asked for the [n]-th entry of [init], those
    of [startup] for its [k]-th entry, so that an attempt may fail and a
    later one with the same arguments succeed. *)

Record Collaborators := {
  (** [controller.GetConfig()]. *)
  GetConfig : nat -> RestConfig * option error;
  (** [kubernetes.NewForConfig(restConfig)]. *)
  K8sNewForConfig : nat -> RestConfig -> option K8sClient * option error;
  (** [promVersioned.NewForConfig(restConfig)]. *)
  PromNewForConfig : nat -> RestConfig -> option PromClient * option error;
  (** [HTTPClientConfig.Convert()]. *)
  Convert : HTTPClientConfig -> PromHTTPClientConfig;
  (** [lokiClient.New(log, config, timing)]. *)
  LokiNew : nat -> LokiConfig -> option LokiClient * option error;
  (** [commonK8s.ConvertSelectorToListOptions(selector)]. *)
  ConvertSelectorToListOptions : LabelSelector -> option Selector * option error;
  (** [namespaceInformer.AddEventHandler] and [ruleInformer.AddEventHandler]. *)
  NamespaceInformerAddEventHandler : nat -> option error;
  RuleInformerAddEventHandler : nat -> option error;
  (** [c.syncLoki(ctx)] (events.go): the current state it leaves and its error. *)
  syncLoki : nat -> RuleGroupsByNamespace -> RuleGroupsByNamespace * option error;
  (** The [nil] map [currentState] starts as. *)
  nilState : RuleGroupsByNamespace;
}.

Variable env : Collaborators.

(** ** Go built-ins and library calls with a panic of their own *)

(** [close(ch)]: closing a [nil] or an already closed channel panics. *)
Definition close (ch : option nat) : M unit :=
  match ch with
  | None => panic "close of nil channel"
  | Some i =>
      s <- get;;
      match chans s !! i with
      | Some false => modify (with_chans (<[i:=true]>)) ;; act (CloseStopChan i)
      | Some true => panic "close of closed channel"
      | None => panic "close of nil channel"
      end
  end.

(** [make(chan struct{})]: a new open channel. *)
Definition make_chan : M nat :=
  s <- get;;
  let ch := length (chans s) in
  modify (with_chans (fun l => l ++ [false])) ;;
  act (MakeStopChan ch) ;;
  ret ch.

(** [workqueue.NewTypedRateLimitingQueueWithConfig(...)]. *)
Definition new_queue : M nat :=
  s <- get;;
  let q := queues s in
  modify (with_queues S) ;;
  act (NewQueue q) ;;
  ret q.

(** A method call on the queue interface: on [nil] it is a nil dereference. *)
Definition on_queue (f : nat -> Action) : M unit :=
  s <- get;;
  match queue (comp s) with
  | None => panic "runtime error: invalid memory address or nil pointer dereference"
  | Some q => act (f q)
  end.

(** [ticker.Reset(d)]. *)
Definition ticker_Reset (d : Duration) : M unit :=
  if decide (d <= 0) then panic "non-positive interval for Ticker.Reset"
  else (update (set_ticker d) ;; act (TickerReset d)).

(** Modelled from the spec: [reportUnhealthy] (health.go is not among the
    sources).  "Exposes a simple healthy/unhealthy flag settable by the
    Lifecycle Manager; unhealthy is set on startup failure or
    configuration-update failure." *)
Definition reportUnhealthy (err : error) : M unit :=
  update (set_health (HealthTypeUnhealthy err)) ;; act (ReportUnhealthy err).

(** ** The component *)

(** [Component.init]: build the clients, reset the ticker, resolve the two
    selectors. Each assignment [c.x, err = f()] stores what [f] returned
    before the error is looked at. *)
Definition init : M (option error) :=
  s <- get;;
  let n := inits s in
  modify (with_inits S) ;;
  act (LogInfo "initializing with new configuration") ;;
  let '(restConfig, err) := GetConfig env n in
  if_err err (Errorf "failed to get k8s config: ") (
  let '(k8s, err) := K8sNewForConfig env n restConfig in
  update (set_k8sClient k8s) ;;
  if_err err (Errorf "failed to create k8s client: ") (
  let '(prom, err) := PromNewForConfig env n restConfig in
  update (set_promClient prom) ;;
  if_err err (Errorf "failed to create prometheus operator client: ") (
  c <- get;;
  let a := args (comp c) in
  let httpClient := Convert env (HTTPClientConfig_ a) in
  let '(loki, err) :=
    LokiNew env n {| ID := TenantID a;
                 LokiAddress := Address a;
                 LokiUseLegacyRoutes := UseLegacyRoutes a;
                 LokiHTTPClientConfig := httpClient |} in
  update (set_lokiClient loki) ;;
  if_err err id (
  ticker_Reset (SyncInterval a) ;;
  let '(sel, err) := ConvertSelectorToListOptions env (RuleNamespaceSelector a) in
  update (set_namespaceSelector sel) ;;
  if_err err id (
  let '(sel, err) := ConvertSelectorToListOptions env (RuleSelector a) in
  update (set_ruleSelector sel) ;;
  if_err err id (
  ret None)))))).

(** [Component.startNamespaceInformer], in the [k]-th [startup]. *)
Definition startNamespaceInformer (k : nat) : M (option error) :=
  update (set_namespaceWatch (Some k)) ;;
  c <- get;;
  act (NamespaceAddEventHandler (queue (comp c))) ;;
  if_err (NamespaceInformerAddEventHandler env k) id (
  act (NamespaceFactoryStart (informerStopChan (comp c))) ;;
  act (NamespaceWaitForCacheSync (informerStopChan (comp c))) ;;
  ret None).

(** [Component.startRuleInformer], in the [k]-th [startup]. *)
Definition startRuleInformer (k : nat) : M (option error) :=
  update (set_ruleWatch (Some k)) ;;
  c <- get;;
  act (RuleAddEventHandler (queue (comp c))) ;;
  if_err (RuleInformerAddEventHandler env k) id (
  act (RuleFactoryStart (informerStopChan (comp c))) ;;
  act (RuleWaitForCacheSync (informerStopChan (comp c))) ;;
  ret None).

(** The call [c.syncLoki(ctx)] in the [k]-th [startup]. *)
Definition do_syncLoki (k : nat) : M (option error) :=
  act SyncLoki ;;
  c <- get;;
  let '(st, err) := syncLoki env k (currentState (comp c)) in
  update (set_currentState st) ;;
  ret err.

(** [Component.startup]: launches the informers and starts the event loop. *)
Definition startup : M (option error) :=
  s <- get;;
  let k := startups s in
  modify (with_startups S) ;;
  q <- new_queue;;
  update (set_queue (Some q)) ;;
  ch <- make_chan;;
  update (set_informerStopChan (Some ch)) ;;
  err <- startNamespaceInformer k;;
  if_err err id (
  err <- startRuleInformer k;;
  if_err err id (
  err <- do_syncLoki k;;
  if_err err id (
  c <- get;;
  act (GoEventLoop (queue (comp c))) ;;
  ret None))).

(** [Component.shutdown]. *)
Definition shutdown : M unit :=
  c <- get;;
  close (informerStopChan (comp c)) ;;
  on_queue QueueShutDownWithDrain.

(** The component literal of [NewComponent]. *)
Definition newComponent (a : Arguments) : Component :=
  {| args := a;
     lokiClient := None; k8sClient := None; promClient := None;
     ruleLister := None; ruleInformer := None;
     namespaceLister := None; namespaceInformer := None;
     informerStopChan := None;
     ticker := SyncInterval a;
     queue := None;
     namespaceSelector := None; ruleSelector := None;
     currentState := nilState env;
     configUpdatesTotal := 0;
     health := HealthTypeUnknown |}.

(** [NewComponent]: [(c, nil)] or [(nil, err)]. [metrics.Register] always
    returns [nil]; [time.NewTicker] panics on a non-positive interval. *)
Definition NewComponent (a : Arguments) : M (option Component * option error) :=
  if decide (SyncInterval a <= 0) then panic "non-positive interval for NewTicker"
  else
    update (fun _ => newComponent a) ;;
    err <- init;;
    match err with
    | Some e => ret (None, Some (Errorf "initializing component failed: " e))
    | None => c <- get;; ret (Some (comp c), None)
    end.

(** The [*backoff.Backoff] of dskit: its configuration and the number of
    waits made on it, on which the delay of the next wait depends. *)
Record Backoff := {
  cfg : BackoffConfig;
  numRetries : nat;
}.

(** [backoff.New(ctx, cfg)]. *)
Definition backoff_New (c : BackoffConfig) : Backoff :=
  {| cfg := c; numRetries := 0 |}.

(** [b.Wait()]. *)
Definition backoff_Wait (b : Backoff) : M Backoff :=
  act (BackoffWait (cfg b) (numRetries b)) ;;
  ret {| cfg := cfg b; numRetries := S (numRetries b) |}.

(** The first loop of [Run]: [startup] until it succeeds, waiting on the
    backoff after each failure. The loop has no exit of its own; [fuel]
    bounds the attempts the model follows, and [None] says it ran out. *)
Fixpoint startupLoop (fuel : nat) (startupBackoff : Backoff) : M (option unit) :=
  match fuel with
  | O => ret None
  | S fuel' =>
      err <- startup;;
      match err with
      | Some e =>
          act (LogError "starting up component failed" e) ;;
          reportUnhealthy e ;;
          startupBackoff' <- backoff_Wait startupBackoff;;
          startupLoop fuel' startupBackoff'
      | None => ret (Some tt)
      end
  end.

(** What the [select] of the second loop receives. *)
Inductive Msg :=
| RecvConfigUpdate (u : ConfigUpdate)
| CtxDone
| TickerC.

(** [case update := <-c.configUpdates]. *)
Definition onConfigUpdate (u : ConfigUpdate) : M unit :=
  update inc_configUpdatesTotal ;;
  act ConfigUpdatesTotalInc ;;
  shutdown ;;
  update (set_args (cu_args u)) ;;
  err <- init;;
  match err with
  | Some e =>
      act (LogError "updating configuration failed" e) ;;
      reportUnhealthy e ;;
      act (SendErr (cu_err u) (Some e))
  | None =>
      err <- startup;;
      match err with
      | Some e =>
          act (LogError "updating configuration failed" e) ;;
          reportUnhealthy e ;;
          act (SendErr (cu_err u) (Some e))
      | None => act (SendErr (cu_err u) None)
      end
  end.

(** [case <-c.ticker.C]. *)
Definition onTick : M unit :=
  on_queue (fun q => QueueAdd q syncLokiEvent).

(** How far [Run] got: it returned, it waits in [select] for a message the
    input does not hold, or it is still in the startup loop. *)
Inductive Outcome :=
| Returned (err : option error)
| Selecting
| StartingUp.

(** The second loop of [Run], fed the messages its [select] receives. *)
Fixpoint runLoop (msgs : list Msg) : M Outcome :=
  match msgs with
  | [] => ret Selecting
  | RecvConfigUpdate u :: rest => onConfigUpdate u ;; runLoop rest
  | CtxDone :: _ => shutdown ;; ret (Returned None)
  | TickerC :: rest => onTick ;; runLoop rest
  end.

(** [Component.Run]. *)
Definition Run (fuel : nat) (msgs : list Msg) : M Outcome :=
  r <- startupLoop fuel (backoff_New startupBackoffConfig);;
  match r with
  | None => ret StartingUp
  | Some _ => runLoop msgs
  end.

(** ** Reading a state and a trace *)

(** The state a computation ends in, returned or panicked. *)
Definition final {A} (r : Result A) : State :=
  match r with
  | Ok _ s => s
  | Panic _ s => s
  end.

(** The component's stop channel exists and is open. *)
Definition stopChanOpen (s : State) : bool :=
  match informerStopChan (comp s) with
  | Some ch => bool_decide (chans s !! ch = Some false)
  | None => false
  end.

(** A generation is in place: an open stop channel and a queue. *)
Definition live (s : State) : bool :=
  stopChanOpen s && bool_decide (is_Some (queue (comp s))).

(** The [Running] state of the lifecycle: a generation is in place and the
    event loop was launched on its queue. *)
Definition Running (s : State) : bool :=
  live s && bool_decide (GoEventLoop (queue (comp s)) ∈ trace s).

(** The results sent on a response channel, in order. *)
Definition sends (errChan : nat) (t : list Action) : list (option error) :=
  omap (fun a => match a with
                 | SendErr ch r => if decide (ch = errChan) then Some r else None
                 | _ => None
                 end) t.

(** Every send on a response channel in a trace: the channel and the
    result sent, in order. *)
Definition all_sends (t : list Action) : list (nat * option error) :=
  omap (fun a => match a with SendErr ch r => Some (ch, r) | _ => None end) t.

(** The waits on a backoff in a trace: its configuration and the number of
    waits made before. *)
Definition waits (t : list Action) : list (BackoffConfig * nat) :=
  omap (fun a => match a with BackoffWait c n => Some (c, n) | _ => None end) t.

(** The errors reported as unhealthy in a trace. *)
Definition reports (t : list Action) : list error :=
  omap (fun a => match a with ReportUnhealthy e => Some e | _ => None end) t.

(** The event loops launched in a trace, by the queue they consume. *)
Definition launches (t : list Action) : list (option nat) :=
  omap (fun a => match a with GoEventLoop q => Some q | _ => None end) t.

(** The [k]-th [startup] fails whatever state it starts in: one of the two
    handler registrations or the initial sync returns an error. *)
Definition attemptFails (k : nat) : Prop :=
  NamespaceInformerAddEventHandler env k <> None \/
  RuleInformerAddEventHandler env k <> None \/
  forall st, snd (syncLoki env k st) <> None.

(** The [k]-th [startup] succeeds whatever state it starts in. *)
Definition attemptSucceeds (k : nat) : Prop :=
  NamespaceInformerAddEventHandler env k = None /\
  RuleInformerAddEventHandler env k = None /\
  forall st, snd (syncLoki env k st) = None.

(** Whether the last result sent in a trace is an error. *)
Definition lastUpdateFailed (t : list Action) : bool :=
  match last (all_sends t) with
  | Some (_, Some _) => true
  | _ => false
  end.

(** The ticker runs at the interval of the component's arguments. *)
Definition tickerOK (s : State) : Prop :=
  ticker (comp s) = SyncInterval (args (comp s)).

(** The configuration updates among the messages of the loop. *)
Definition updates (msgs : list Msg) : list ConfigUpdate :=
  omap (fun m => match m with RecvConfigUpdate u => Some u | _ => None end) msgs.

(** What the spec asks of an update that failed: the controller stays on
    the prior generation. The arguments, the stop channel and the queue are
    those of before, the channel is still open, and the queue was not shut
    down on the way from [s] to [s']. *)
Definition staysOnPriorGeneration (s s' : State) : Prop :=
  args (comp s') = args (comp s) /\
  informerStopChan (comp s') = informerStopChan (comp s) /\
  stopChanOpen s' = true /\
  queue (comp s') = queue (comp s) /\
  forall q, QueueShutDownWithDrain q ∉ drop (length (trace s)) (trace s').

(** What [init] leaves alone: the generation (channels, queue), the current
    state, the counter, the health and the arguments. *)
Definition sameGeneration (s s' : State) : Prop :=
  chans s' = chans s /\ queues s' = queues s /\ startups s' = startups s /\
  informerStopChan (comp s') = informerStopChan (comp s) /\
  queue (comp s') = queue (comp s) /\
  currentState (comp s') = currentState (comp s) /\
  configUpdatesTotal (comp s') = configUpdatesTotal (comp s).

(** The error of the client-construction part of the [n]-th [init]: cluster
    configuration, cluster client, operator client, Loki client. *)
Definition clientConstructionError (n : nat) (a : Arguments) : option error :=
  let '(restConfig, err) := GetConfig env n in
  match err with
  | Some e => Some (Errorf "failed to get k8s config: " e)
  | None =>
      match snd (K8sNewForConfig env n restConfig) with
      | Some e => Some (Errorf "failed to create k8s client: " e)
      | None =>
          match snd (PromNewForConfig env n restConfig) with
          | Some e => Some (Errorf "failed to create prometheus operator client: " e)
          | None =>
              snd (LokiNew env n {| ID := TenantID a;
                                    LokiAddress := Address a;
                                    LokiUseLegacyRoutes := UseLegacyRoutes a;
                                    LokiHTTPClientConfig := Convert env (HTTPClientConfig_ a) |})
          end
      end
  end.

(** The error [init] returns on its [n]-th entry with arguments [a]: the
    first, in the order of the source, of the client constructions, the
    namespace selector and the rule selector. The errors of the selectors
    are returned as they come. *)
Definition initError (n : nat) (a : Arguments) : option error :=
  match clientConstructionError n a with
  | Some e => Some e
  | None =>
      match snd (ConvertSelectorToListOptions env (RuleNamespaceSelector a)) with
      | Some e => Some e
      | None => snd (ConvertSelectorToListOptions env (RuleSelector a))
      end
  end.

(** The stop channels closed in a trace, and the queues shut down. *)
Definition closes (t : list Action) : list nat :=
  omap (fun a => match a with CloseStopChan ch => Some ch | _ => None end) t.
Definition drains (t : list Action) : list nat :=
  omap (fun a => match a with QueueShutDownWithDrain q => Some q | _ => None end) t.

(** At most one generation: the only stop channel that may be open is the
    component's. *)
Definition onlyCurrentOpen (s : State) : Prop :=
  forall ch, chans s !! ch = Some false -> informerStopChan (comp s) = Some ch.



(** The state [shutdown] leaves when channel [ch] was open and the queue
    is [q]: the channel closed, the two calls traced, nothing else touched. *)
Definition afterShutdown (ch q : nat) (s : State) : State :=
  emit (QueueShutDownWithDrain q)
    (emit (CloseStopChan ch) (with_chans (<[ch:=true]>) s)).

(** The state after a failed attempt was logged, reported and waited for. *)
Definition afterFailedAttempt (e : error) (b : Backoff) (s : State) : State :=
  emit (BackoffWait (cfg b) (numRetries b))
    (emit (ReportUnhealthy e)
      (with_comp (set_health (HealthTypeUnhealthy e))
        (emit (LogError "starting up component failed" e) s))).

(** The actions of one successful [startup] on queue [q] and channel [ch]. *)
Definition startupActions (q ch : nat) : list Action :=
  [ NewQueue q; MakeStopChan ch;
    NamespaceAddEventHandler (Some q);
    NamespaceFactoryStart (Some ch); NamespaceWaitForCacheSync (Some ch);
    RuleAddEventHandler (Some q);
    RuleFactoryStart (Some ch); RuleWaitForCacheSync (Some ch);
    SyncLoki;
    GoEventLoop (Some q) ].

(** ** [Update], called from other goroutines

    [Update] makes a response channel, sends the update on [configUpdates]
    and returns what it receives on the response channel. Both channels are
    unbuffered: a send and its receive are one step of two goroutines. The
    goroutines inside [Update] are listed in the order of their [make]; the
    position in the list names the response channel. *)

(** Where a goroutine inside [Update] is. *)
Inductive Caller :=
| Sending (u : ConfigUpdate)
| Receiving (errChan : nat)
| Got (r : option error).

(** Where the goroutine of [Run] is in its second loop: at the [select],
    at one of the sends [update.err <- r], returned, or panicked. *)
Inductive Loop :=
| AtSelect
| SendingErr (errChan : nat) (r : option error)
| Exited (r : option error)
| Crashed (msg : string).

Record System := {
  loop : Loop;
  callers : list Caller;
  st : State;
}.

(** The steps of the goroutines: a new call of [Update] that runs up to its
    send; the loop receiving the update of caller [ch] and processing it up
    to its send on the response channel; that send meeting the caller's
    receive; a tick; the cancellation of the context. *)
Inductive Label :=
| Call (a : Arguments)
| Begin (ch : nat)
| Deliver (ch : nat)
| Tick
| Cancel.

(** [Component.Update] up to its send: [errChan := make(chan error)], and
    the goroutine blocked in [c.configUpdates <- ConfigUpdate{...}]. Its
    last statement, [return <-errChan], is the step [Deliver]. *)
Definition Update (newConfig : Arguments) (sys : System) : System :=
  let errChan := length (callers sys) in
  {| loop := loop sys;
     callers := callers sys ++ [Sending {| cu_args := newConfig; cu_err := errChan |}];
     st := st sys |}.

(** The result the loop is about to send after processing an update: the
    operand of the send it stopped at. *)
Definition pendingSend (s : State) : option (nat * option error) :=
  match last (trace s) with
  | Some (SendErr ch r) => Some (ch, r)
  | _ => None
  end.

(** One step, when the goroutines it needs are where it needs them. *)
Definition step (l : Label) (sys : System) : option System :=
  match l with
  | Call a => Some (Update a sys)
  | Begin ch =>
      match loop sys, callers sys !! ch with
      | AtSelect, Some (Sending u) =>
          match onConfigUpdate u (st sys) with
          | Ok _ s' =>
              match pendingSend s' with
              | Some (errChan, r) =>
                  Some {| loop := SendingErr errChan r;
                          callers := <[ch := Receiving (cu_err u)]> (callers sys);
                          st := s' |}
              | None => None
              end
          | Panic msg s' =>
              Some {| loop := Crashed msg;
                      callers := <[ch := Receiving (cu_err u)]> (callers sys);
                      st := s' |}
          end
      | _, _ => None
      end
  | Deliver ch =>
      match loop sys, callers sys !! ch with
      | SendingErr errChan r, Some (Receiving errChan') =>
          if decide (errChan = errChan') then
            Some {| loop := AtSelect;
                    callers := <[ch := Got r]> (callers sys);
                    st := st sys |}
          else None
      | _, _ => None
      end
  | Tick =>
      match loop sys with
      | AtSelect =>
          match onTick (st sys) with
          | Ok _ s' => Some {| loop := AtSelect; callers := callers sys; st := s' |}
          | Panic msg s' => Some {| loop := Crashed msg; callers := callers sys; st := s' |}
          end
      | _ => None
      end
  | Cancel =>
      match loop sys with
      | AtSelect =>
          match shutdown (st sys) with
          | Ok _ s' => Some {| loop := Exited None; callers := callers sys; st := s' |}
          | Panic msg s' => Some {| loop := Crashed msg; callers := callers sys; st := s' |}
          end
      | _ => None
      end
  end.

(** A schedule, step by step; [None] when a step was not possible. *)
Fixpoint exec (sched : list Label) (sys : System) : option System :=
  match sched with
  | [] => Some sys
  | l :: rest =>
      match step l sys with
      | Some sys' => exec rest sys'
      | None => None
      end
  end.

(** The loop at its [select] in state [s], and nobody in [Update]. *)
Definition atSelect (s : State) : System :=
  {| loop := AtSelect; callers := []; st := s |}.

(** Updates are processed one at a time: with [busy] the update whose
    result is not delivered yet, no other begins, and the delivery is its. *)
Fixpoint serialized (busy : option nat) (sched : list Label) : bool :=
  match sched with
  | [] => true
  | Begin ch :: rest =>
      match busy with
      | None => serialized (Some ch) rest
      | Some _ => false
      end
  | Deliver ch :: rest =>
      match busy with
      | Some ch' => bool_decide (ch = ch') && serialized None rest
      | None => false
      end
  | _ :: rest => serialized busy rest
  end.

(** What holds of the goroutines after the schedule [sched], started with
    trace [t0]: a caller still sending has had nothing sent on its channel;
    a caller receiving has had its update begun, and either the loop is at
    the send of its one result or it panicked before any; a caller that
    returned got the one result sent on its channel, by a delivery; no
    channel is used before it is made; and one caller at most is receiving. *)
Definition Inv (t0 : list Action) (sched : list Label) (sys : System) : Prop :=
  exists new,
    trace (st sys) = t0 ++ new /\
    (forall ch u, callers sys !! ch = Some (Sending u) ->
       cu_err u = ch /\ sends ch new = []) /\
    (forall ch e, callers sys !! ch = Some (Receiving e) ->
       e = ch /\ Begin ch ∈ sched /\
       match loop sys with
       | SendingErr e' r => e' = ch /\ sends ch new = [r]
       | Crashed _ => sends ch new = []
       | _ => False
       end) /\
    (forall ch r, callers sys !! ch = Some (Got r) ->
       Deliver ch ∈ sched /\ sends ch new = [r]) /\
    (forall ch, (length (callers sys) <= ch)%nat -> sends ch new = []) /\
    (forall e r, loop sys = SendingErr e r ->
       callers sys !! e = Some (Receiving e)) /\
    (forall ch ch' e e',
       callers sys !! ch = Some (Receiving e) ->
       callers sys !! ch' = Some (Receiving e') -> ch = ch').

(** The update [busy] the schedule is in the middle of agrees with where
    the loop is. After a panic nothing begins any more. *)
Definition busyAt (busy : option nat) (lp : Loop) : Prop :=
  match lp with
  | AtSelect | Exited _ => busy = None
  | SendingErr e _ => busy = Some e
  | Crashed _ => True
  end.


(** The messages the loop receives in a schedule, in the order it takes
    them: the update of caller [ch] where its processing begins, a tick, a
    cancellation. [calls] are the arguments of the calls of [Update] made so
    far, in the order of their response channels. *)
Fixpoint received (calls : list Arguments) (sched : list Label) : list Msg :=
  match sched with
  | [] => []
  | Call a :: rest => received (calls ++ [a]) rest
  | Begin ch :: rest =>
      match calls !! ch with
      | Some a => RecvConfigUpdate {| cu_args := a; cu_err := ch |} :: received calls rest
      | None => received calls rest
      end
  | Deliver _ :: rest => received calls rest
  | Tick :: rest => TickerC :: received calls rest
  | Cancel :: rest => CtxDone :: received calls rest
  end.

(** The goroutines are where the second loop of [Run], run on its own from
    state [s0] with the messages [msgs], ends up. *)
Definition agrees (msgs : list Msg) (s0 : State) (sys : System) : Prop :=
  match loop sys with
  | AtSelect | SendingErr _ _ => runLoop msgs s0 = Ok Selecting (st sys)
  | Exited r => runLoop msgs s0 = Ok (Returned r) (st sys)
  | Crashed msg => runLoop msgs s0 = Panic msg (st sys)
  end.

(** The callers still sending are the calls made, each with its channel. *)
Definition callsOf (calls : list Arguments) (sys : System) : Prop :=
  length (callers sys) = length calls /\
  forall ch u, callers sys !! ch = Some (Sending u) ->
               calls !! ch = Some (cu_args u) /\ cu_err u = ch.

(** The loop has returned or panicked. *)
Definition stopped (lp : Loop) : bool :=
  match lp with
  | Exited _ | Crashed _ => true
  | _ => false
  end.

End Controller.

Arguments Ok {_ _ _ _ _ _ _ _} a s.
Arguments Panic {_ _ _ _ _ _ _ _} msg s.

(** * A concrete cluster

    Collaborators with nothing behind them but the decisions the component
    depends on: whether the cluster configuration can be read, whether the
    Loki address is usable, whether a selector parses, and whether the
    [k]-th initial sync goes through. *)

Definition demoSelector (l : string) : option string * option error :=
  if decide (l = "app in (") then (None, Some "unable to parse selector")
  else (Some l, None).

Definition demoEnv (clusterUp syncOk : nat -> bool)
  : @Collaborators unit unit unit unit unit unit string string (list string) :=
  {| GetConfig := fun n => (tt, if clusterUp n then None else Some "no kubeconfig");
     K8sNewForConfig := fun _ _ => (Some tt, None);
     PromNewForConfig := fun _ _ => (Some tt, None);
     Convert := fun c => c;
     LokiNew := fun _ c =>
       if decide (LokiAddress c = "") then (None, Some "no address")
       else (Some tt, None);
     ConvertSelectorToListOptions := demoSelector;
     NamespaceInformerAddEventHandler := fun _ => None;
     RuleInformerAddEventHandler := fun _ => None;
     syncLoki := fun k st =>
       if syncOk k then ("team-a" :: st, None) else (st, Some "loki unreachable");
     nilState := [] |}.

(** Everything works. *)
Definition healthyEnv := demoEnv (fun _ => true) (fun _ => true).
(** The initial sync fails twice, then works. *)
Definition flakyEnv := demoEnv (fun _ => true) (fun k => bool_decide (2 <= k)%nat).
(** The cluster configuration cannot be read. *)
Definition noClusterEnv := demoEnv (fun _ => false) (fun _ => true).
(** The cluster configuration can be read once, for the constructor. *)
Definition clusterGoneEnv := demoEnv (fun n => bool_decide (n = 0)%nat) (fun _ => true).
(** The initial sync works once, for the first startup. *)
Definition syncOnceEnv := demoEnv (fun _ => true) (fun k => bool_decide (k = 0)%nat).

Definition demoArgs (selector : string) (interval : Duration) : @Arguments unit string :=
  {| Address := "http://loki:3100";
     TenantID := "fake";
     UseLegacyRoutes := false;
     HTTPClientConfig_ := tt;
     SyncInterval := interval;
     RuleSelector := selector;
     RuleNamespaceSelector := "" |}.

Definition goodArgs := demoArgs "app=alloy" (5 * Second).
Definition otherArgs := demoArgs "app=loki" (30 * Second).
Definition badSelectorArgs := demoArgs "app in (" (5 * Second).

(** The state [NewComponent] is called in: nothing made, nothing done. *)
Definition blank : State :=
  {| comp := newComponent healthyEnv goodArgs;
     chans := []; queues := 0; inits := 0; startups := 0; trace := [] |}.

(** The state [NewComponent] leaves for [Run]. *)
Definition built : State := final (NewComponent healthyEnv goodArgs blank).

(** The state of a loop at its [select] after a first successful startup. *)
Definition running : State := final (Run healthyEnv 1 [] built).

(** An update to another selector and interval, and one whose rule selector
    does not parse. *)
Definition otherUpdate (errChan : nat) : @ConfigUpdate unit string :=
  {| cu_args := otherArgs; cu_err := errChan |}.
Definition badUpdate (errChan : nat) : @ConfigUpdate unit string :=
  {| cu_args := badSelectorArgs; cu_err := errChan |}.
(** An update to another interval whose rule selector does not parse. *)
Definition slowBadUpdate (errChan : nat) : @ConfigUpdate unit string :=
  {| cu_args := demoArgs "app in (" (30 * Second); cu_err := errChan |}.

(** The state after the update with the bad selector was rejected. *)
Definition rejected : State := final (onConfigUpdate healthyEnv (badUpdate 7) running).

(** The system after the context of a running loop was cancelled. *)
Definition cancelled : @System unit unit unit unit string string (list string) :=
  {| loop := Exited None; callers := []; st := afterShutdown 0 0 running |}.

(** Two goroutines call [Update] beside a running loop; the first update is
    applied, the second has a selector that does not parse. *)
Definition twoCallers : list (@Label unit string) :=
  [ Call otherArgs; Call badSelectorArgs;
    Begin 0; Deliver 0; Begin 1; Deliver 1 ].

(** * Properties *)

Section Properties.

Context {RestConfig K8sClient PromClient LokiClient : Type}.
Context {HTTPClientConfig PromHTTPClientConfig : Type}.
Context {LabelSelector Selector RuleGroupsByNamespace : Type}.

(** The collaborators are arbitrary throughout. *)
Context (env : @Collaborators RestConfig K8sClient PromClient LokiClient
                 HTTPClientConfig PromHTTPClientConfig
                 LabelSelector Selector RuleGroupsByNamespace).

Local Abbreviation State :=
  (@State K8sClient PromClient LokiClient HTTPClientConfig LabelSelector
          Selector RuleGroupsByNamespace).
Local Abbreviation Component :=
  (@Component K8sClient PromClient LokiClient HTTPClientConfig LabelSelector
              Selector RuleGroupsByNamespace).


(** ** Tactics *)

(** Unfold the state-passing plumbing. *)
Ltac unfold_go :=
  unfold if_err, reportUnhealthy, on_queue in *;
  unfold act, update in *;
  unfold bind, ret, get, modify, panic in *.

(** Split on the collaborator result or test that blocks evaluation. *)
Ltac split_step :=
  match goal with
  | |- context [match ?x with _ => _ end] =>
      lazymatch x with
      | context [match _ with _ => _ end] => fail
      | _ => destruct x eqn:?
      end
  | |- context [if ?x then _ else _] =>
      lazymatch x with
      | context [match _ with _ => _ end] => fail
      | context [if _ then _ else _] => fail
      | _ => destruct x eqn:?
      end
  end.

(** Bring a trace built by successive [emit]s to the form [t ++ actions]. *)
Ltac trace_norm := rewrite <- ?app_assoc; cbn [app].

(** Membership in a trace written out as a list. *)
Ltac in_trace :=
  rewrite ?elem_of_app, ?elem_of_cons;
  repeat first [ left; reflexivity | right ].
Ltac not_in_trace :=
  rewrite ?not_elem_of_app, ?not_elem_of_cons; repeat split;
  try discriminate; try apply not_elem_of_nil.

(** ** [init] *)

Lemma init_frame (s : State) :
  let s' := final (init env s) in
  sameGeneration s s' /\
  args (comp s') = args (comp s) /\
  health (comp s') = health (comp s) /\
  inits s' = S (inits s) /\
  exists t, trace s' = trace s ++ LogInfo "initializing with new configuration" :: t /\
            (t = [] \/ t = [TickerReset (SyncInterval (args (comp s)))]).
Proof.
  destruct s as [c ch q i n t]; destruct c.
  unfold init, ticker_Reset, sameGeneration; unfold_go; cbn.
  repeat (split_step; cbn); repeat split; trace_norm; eauto.
Qed.

(** With a positive interval [init] returns: the ticker is its only panic. *)
Lemma init_returns (s : State) :
  0 < SyncInterval (args (comp s)) ->
  exists r s', init env s = Ok r s'.
Proof.
  intros Hpos.
  destruct s as [c ch q i n t]; destruct c; cbn in Hpos.
  unfold init, ticker_Reset; unfold_go; cbn.
  repeat (split_step; cbn); try lia; eauto.
Qed.

(** A successful [init] has reset the ticker to the configured interval. *)
Lemma init_nil (s s' : State) :
  init env s = Ok None s' ->
  ticker (comp s') = SyncInterval (args (comp s)) /\
  trace s' = trace s ++ [LogInfo "initializing with new configuration";
                         TickerReset (SyncInterval (args (comp s)))].
Proof.
  destruct s as [c ch q i n t]; destruct c.
  unfold init, ticker_Reset; unfold_go; cbn.
  repeat (split_step; cbn); intros H; inversion H; subst; cbn;
    trace_norm; auto.
Qed.

(** When a client cannot be built, [init] returns that error at once: it
    logs its first line and does nothing else to the outside. *)
Lemma init_client_failure (s : State) (e : error) :
  clientConstructionError env (inits s) (args (comp s)) = Some e ->
  exists s', init env s = Ok (Some e) s' /\
             trace s' = trace s ++ [LogInfo "initializing with new configuration"] /\
             ticker (comp s') = ticker (comp s).
Proof.
  destruct s as [c ch q i n t]; destruct c.
  unfold clientConstructionError, init, ticker_Reset; unfold_go; cbn.
  repeat (split_step; cbn in *); intros H; simplify_eq;
    eexists; repeat split; trace_norm; eauto.
Qed.

(** ** [startup] *)

Ltac unfold_startup :=
  unfold startup, startNamespaceInformer, startRuleInformer, do_syncLoki,
    new_queue, make_chan in *.

(** [startup] always returns, and always leaves a new generation in place:
    a queue and an open stop channel that did not exist before. Its trace
    is the full list of startup actions exactly when it returns [nil]. *)
Lemma startup_returns (s : State) :
  let q := queues s in
  let ch := length (chans s) in
  exists r s',
    startup env s = Ok r s' /\
    chans s' = chans s ++ [false] /\
    queues s' = S q /\
    startups s' = S (startups s) /\
    inits s' = inits s /\
    informerStopChan (comp s') = Some ch /\
    queue (comp s') = Some q /\
    args (comp s') = args (comp s) /\
    ticker (comp s') = ticker (comp s) /\
    health (comp s') = health (comp s) /\
    configUpdatesTotal (comp s') = configUpdatesTotal (comp s) /\
    exists t,
      trace s' = trace s ++ t /\
      waits t = [] /\ reports t = [] /\ all_sends t = [] /\
      match r with
      | None => t = startupActions q ch
      | Some _ => launches t = []
      end.
Proof.
  destruct s as [c ch q i n t]; destruct c.
  unfold_startup; unfold_go; cbn.
  repeat (split_step; cbn);
    do 2 eexists; (split; [reflexivity|]); cbn; repeat split;
    eexists; trace_norm; (split; [reflexivity|]); repeat split.
Qed.

(** ** [shutdown] *)

Lemma live_inv (s : State) :
  live s = true ->
  exists ch q, informerStopChan (comp s) = Some ch /\
               chans s !! ch = Some false /\
               queue (comp s) = Some q.
Proof.
  unfold live, stopChanOpen. intros H.
  apply andb_true_iff in H as [H1 H2].
  destruct (informerStopChan (comp s)) as [ch|]; [|discriminate].
  apply bool_decide_eq_true in H1, H2. destruct H2 as [q Hq].
  eauto.
Qed.

(** On a live generation [shutdown] returns. *)
Lemma shutdown_live (s : State) (ch q : nat) :
  informerStopChan (comp s) = Some ch ->
  chans s !! ch = Some false ->
  queue (comp s) = Some q ->
  shutdown s = Ok tt (afterShutdown ch q s).
Proof.
  destruct s as [c chs qs i n t]; destruct c; cbn.
  intros -> Hopen ->.
  unfold shutdown, close, afterShutdown; unfold_go; cbn.
  rewrite Hopen. reflexivity.
Qed.

(** On a stop channel that is already closed [shutdown] panics, before it
    reaches the queue. *)
Lemma shutdown_closed (s : State) (ch : nat) :
  informerStopChan (comp s) = Some ch ->
  chans s !! ch = Some true ->
  shutdown s = Panic "close of closed channel" s.
Proof.
  destruct s as [c chs qs i n t]; destruct c; cbn.
  intros -> Hclosed.
  unfold shutdown, close; unfold_go; cbn.
  rewrite Hclosed. reflexivity.
Qed.


(** ** A configuration update *)

Ltac unfold_all :=
  unfold onConfigUpdate, onTick, shutdown, close, init, ticker_Reset in *;
  unfold_startup; unfold_go.

(** A new channel is open, and making it closes or opens no other. *)
Lemma lookup_new_chan (chs : list bool) : (chs ++ [false]) !! length chs = Some false.
Proof. by apply list_lookup_middle. Qed.

(** A state with a channel just made and an event loop just launched on its
    queue is [Running]. *)
Lemma Running_after_startup (c : Component) (chs : list bool) (qs i n : nat)
    (t t' : list Action) :
  informerStopChan c = Some (length chs) ->
  queue c = Some qs ->
  GoEventLoop (Some qs) ∈ t' ->
  Running {| comp := c; chans := chs ++ [false]; queues := S qs; inits := i;
             startups := n; trace := t ++ t' |} = true.
Proof.
  intros Hc Hq Hin. unfold Running, live, stopChanOpen; cbn.
  rewrite Hc, Hq, lookup_new_chan.
  rewrite !bool_decide_eq_true_2; auto.
  apply elem_of_app; auto.
Qed.

(** An update received with a live generation and a positive interval
    returns: it has shut the generation down, taken the new arguments and
    sent one result, as the last thing done. On [nil] the loop is [Running]
    on a new generation; on an error the component is unhealthy and no
    event loop was launched. *)
Lemma onConfigUpdate_live (s : State) (u : ConfigUpdate) (ch q : nat) :
  informerStopChan (comp s) = Some ch ->
  chans s !! ch = Some false ->
  queue (comp s) = Some q ->
  0 < SyncInterval (cu_args u) ->
  exists r s' t,
    onConfigUpdate env u s = Ok tt s' /\
    trace s' = trace s ++ [ConfigUpdatesTotalInc; CloseStopChan ch;
                           QueueShutDownWithDrain q] ++ t /\
    all_sends t = [(cu_err u, r)] /\
    last t = Some (SendErr (cu_err u) r) /\
    args (comp s') = cu_args u /\
    chans s' !! ch = Some true /\
    inits s' = S (inits s) /\
    match r with
    | None =>
        Running s' = true /\
        ticker (comp s') = SyncInterval (cu_args u) /\
        health (comp s') = health (comp s)
    | Some e =>
        health (comp s') = HealthTypeUnhealthy e /\
        ReportUnhealthy e ∈ t /\
        (forall x, GoEventLoop x ∉ t)
    end.
Proof.
  destruct s as [c chs qs i n t]; destruct c; destruct u as [a errChan]; cbn.
  intros -> Hopen -> Hpos.
  assert (Hlt : (ch < length chs)%nat) by (eapply lookup_lt_Some; eauto).
  assert (Hclosed : <[ch:=true]> chs !! ch = Some true)
    by (by apply list_lookup_insert_eq).
  assert (Hclosed' : (<[ch:=true]> chs ++ [false]) !! ch = Some true)
    by (by rewrite lookup_app_l; [|rewrite length_insert]).
  unfold_all; cbn. rewrite Hopen; cbn.
  repeat (split_step; cbn); try lia;
    eexists _, _, _; (split; [reflexivity|]); cbn; trace_norm;
    (split; [reflexivity|]); (split; [reflexivity|]); (split; [reflexivity|]);
    (split; [reflexivity|]); (split; [assumption|]); (split; [reflexivity|]).
  all: try (split; [reflexivity|]; split; [in_trace | intros x; not_in_trace]).
  split; [|split; reflexivity].
  apply Running_after_startup; [reflexivity | reflexivity | in_trace].
Qed.

(** ** The startup loop of [Run] *)

(** An attempt that succeeds in every state returns [nil]. *)
Lemma startup_succeeds (s : State) :
  attemptSucceeds env (startups s) ->
  exists s', startup env s = Ok None s'.
Proof.
  intros (Hns & Hrule & Hsync).
  destruct s as [c ch q i n t]; destruct c; cbn in *.
  unfold_startup; unfold_go; cbn.
  rewrite Hns, Hrule; cbn.
  specialize (Hsync currentState0).
  destruct (syncLoki env n currentState0) as [st err]; cbn in *; subst.
  eauto.
Qed.

(** An attempt that fails in every state returns its error. *)
Lemma startup_fails (s : State) :
  attemptFails env (startups s) ->
  exists e s', startup env s = Ok (Some e) s'.
Proof.
  intros Hfail.
  destruct s as [c ch q i n t]; destruct c; cbn in *.
  unfold_startup; unfold_go; cbn.
  destruct (NamespaceInformerAddEventHandler env n) eqn:Hns; cbn; eauto.
  destruct (RuleInformerAddEventHandler env n) eqn:Hrule; cbn; eauto.
  destruct Hfail as [H|[H|H]]; try congruence.
  specialize (H currentState0).
  destruct (syncLoki env n currentState0) as [st [e|]]; cbn in *; eauto.
  congruence.
Qed.

(** One turn of the startup loop. *)
Lemma startupLoop_step (fuel : nat) (b : Backoff) (s : State) :
  startupLoop env (S fuel) b s =
  match startup env s with
  | Ok None s' => Ok (Some tt) s'
  | Ok (Some e) s' =>
      startupLoop env fuel {| cfg := cfg b; numRetries := S (numRetries b) |}
        (afterFailedAttempt e b s')
  | Panic msg s' => Panic msg s'
  end.
Proof.
  cbn [startupLoop]. unfold backoff_Wait, afterFailedAttempt; unfold_go.
  destruct (startup env s) as [[e|] s'|]; reflexivity.
Qed.

(** What a failed attempt's log, report and wait change. *)
Lemma afterFailedAttempt_frame (e : error) (b : Backoff) (s : State) :
  let s' := afterFailedAttempt e b s in
  trace s' = trace s ++ [LogError "starting up component failed" e;
                         ReportUnhealthy e;
                         BackoffWait (cfg b) (numRetries b)] /\
  startups s' = startups s /\ inits s' = inits s /\
  configUpdatesTotal (comp s') = configUpdatesTotal (comp s) /\
  args (comp s') = args (comp s) /\
  ticker (comp s') = ticker (comp s) /\
  health (comp s') = HealthTypeUnhealthy e.
Proof.
  destruct s as [c ch q i n t]; destruct c; cbn. trace_norm. by repeat split.
Qed.

(** The startup loop never panics and never gives up. It made [n] failed
    attempts, each reported unhealthy and followed by one wait on the same
    backoff; it either goes on to the second loop, right after the launch
    of the event loop by the attempt that succeeded, or it is still
    retrying when the fuel is spent. *)
Lemma startupLoop_outcome (fuel : nat) (b : Backoff) (s : State) :
  exists r s' t n,
    startupLoop env fuel b s = Ok r s' /\
    trace s' = trace s ++ t /\
    all_sends t = [] /\
    waits t = (fun i => (cfg b, (numRetries b + i)%nat)) <$> seq 0 n /\
    length (reports t) = n /\
    inits s' = inits s /\
    configUpdatesTotal (comp s') = configUpdatesTotal (comp s) /\
    args (comp s') = args (comp s) /\
    ticker (comp s') = ticker (comp s) /\
    (forall k, (k < n)%nat -> ~ attemptSucceeds env (startups s + k)) /\
    match r with
    | Some _ =>
        (n < fuel)%nat /\ startups s' = (startups s + S n)%nat /\
        Running s' = true /\
        launches t = [queue (comp s')] /\
        last t = Some (GoEventLoop (queue (comp s'))) /\
        ~ attemptFails env (startups s + n)
    | None =>
        n = fuel /\ startups s' = (startups s + fuel)%nat /\ launches t = []
    end.
Proof.
  revert b s. induction fuel as [|fuel IH]; intros b s.
  - exists None, s, [], 0%nat. cbn. rewrite app_nil_r, Nat.add_0_r.
    repeat split; try reflexivity. intros k Hk. lia.
  - rewrite startupLoop_step.
    destruct (startup_returns s)
      as (r & s1 & Hst & Hch & Hqs & Hn & Hi & Hc & Hq & Ha & Htk & Hh & Hcu
          & t1 & Ht1 & Hw1 & Hr1 & Hs1 & Hr).
    rewrite Hst. destruct r as [e|].
    + destruct (IH {| cfg := cfg b; numRetries := S (numRetries b) |}
                  (afterFailedAttempt e b s1))
        as (r' & s' & t' & n' & Hloop & Ht' & Hs' & Hw' & Hr' & Hi' & Hcu'
            & Ha' & Htk' & Hnok' & Hmatch).
      exists r', s',
        (t1 ++ [LogError "starting up component failed" e; ReportUnhealthy e;
                BackoffWait (cfg b) (numRetries b)] ++ t'), (S n').
      destruct (afterFailedAttempt_frame e b s1)
        as (Hft & Hfn & Hfi & Hfc & Hfa & Hftk & _).
      split; [assumption|].
      split; [rewrite Ht', Hft, Ht1; trace_norm; reflexivity|].
      unfold all_sends, waits, reports, launches in *.
      rewrite !omap_app; cbn.
      rewrite Hs1, Hw1, Hr1, Hs', Hw', Hr; cbn.
      split; [reflexivity|]. split.
      { rewrite Nat.add_0_r. f_equal. rewrite <- fmap_S_seq, <- list_fmap_compose.
        apply list_fmap_ext. intros _ i _. cbn. f_equal. lia. }
      split; [by rewrite Hr'|].
      repeat (split; [congruence|]).
      split.
      { intros [|k] Hk Hok.
        - rewrite Nat.add_0_r in Hok.
          destruct (startup_succeeds s Hok) as [s2 Hs2]. congruence.
        - apply (Hnok' k); [lia|]. rewrite Hfn, Hn.
          by replace (S (startups s) + k)%nat with (startups s + S k)%nat by lia. }
      destruct r' as [[]|].
      * destruct Hmatch as (Hlt & Hst' & Hrun & Hl' & Hlast & Hnf).
        repeat split; [lia | lia | assumption | assumption | |].
        -- rewrite last_app, last_cons, last_cons, last_cons, Hlast. reflexivity.
        -- rewrite Hfn, Hn in Hnf.
           by replace (startups s + S n')%nat with (S (startups s) + n')%nat by lia.
      * destruct Hmatch as (-> & Hst' & Hl'). repeat split; [lia | assumption].
    + subst t1.
      exists (Some tt), s1, (startupActions (queues s) (length (chans s))), 0%nat.
      assert (Hrun : Running s1 = true).
      { destruct s1 as [c1 ch1 q1 i1 n1 tr1]; cbn in *. subst.
        apply (Running_after_startup _ _ _ _ _ _ (startupActions _ _));
          [assumption | assumption | unfold startupActions; in_trace]. }
      rewrite Hq. repeat split; try assumption; try lia.
      rewrite Nat.add_0_r. intros Hfail.
      destruct (startup_fails s Hfail) as (e & s2 & Hs2). congruence.
Qed.

(** C5. When [Run] begins and the first [n] startup attempts fail, each is
    reported unhealthy and followed by one wait on the backoff that [Run]
    made with a minimum of 1 second, a maximum of 10 seconds and no limit on
    retries ([MaxRetries = 0]); the waits are the first, second, ... wait on
    that one backoff. However large [n] is, the attempt after them is made,
    and when it succeeds [Run] goes on to its second loop in the state that
    attempt left: [Running], the launch of the event loop being the last
    thing done, and nothing sent or launched before. For every state, [Run]
    is either in that second loop after a startup that succeeded, or still
    in the startup loop with every attempt so far reported unhealthy. *)
Theorem startup_retried_with_backoff (n fuel : nat) (msgs : list Msg) (s : State) :
  (forall k, (k < n)%nat -> attemptFails env (startups s + k)) ->
  attemptSucceeds env (startups s + n) ->
  (n < fuel)%nat ->
  (MinBackoff startupBackoffConfig = 1 * Second /\
   MaxBackoff startupBackoffConfig = 10 * Second /\
   MaxRetries startupBackoffConfig = 0) /\
  (exists s' t,
     Run env fuel msgs s = runLoop env msgs s' /\
     trace s' = trace s ++ t /\
     startups s' = (startups s + S n)%nat /\
     waits t = (fun i => (startupBackoffConfig, i)) <$> seq 0 n /\
     length (reports t) = n /\
     launches t = [queue (comp s')] /\
     last t = Some (GoEventLoop (queue (comp s'))) /\
     all_sends t = [] /\
     Running s' = true) /\
  (forall s0 : State,
     (exists s1, Run env fuel msgs s0 = runLoop env msgs s1 /\ Running s1 = true) \/
     (exists s1 t, Run env fuel msgs s0 = Ok StartingUp s1 /\
                   trace s1 = trace s0 ++ t /\
                   length (reports t) = fuel /\ launches t = [])).
Proof.
  intros Hfail Hok Hfuel. split; [by repeat split|]. split.
  - destruct (startupLoop_outcome fuel (backoff_New startupBackoffConfig) s)
      as (r & s' & t & n0 & Hloop & Ht & Hs & Hw & Hr & _ & _ & _ & _ & Hnok & Hmatch).
    destruct r as [[]|].
    + destruct Hmatch as (Hlt & Hst & Hrun & Hl & Hlast & Hnf).
      assert (n0 = n) as ->.
      { destruct (Nat.lt_trichotomy n0 n) as [H|[H|H]]; [|assumption|].
        - exfalso. apply Hnf, Hfail, H.
        - exfalso. apply (Hnok n H Hok). }
      exists s', t. unfold Run, bind. rewrite Hloop. by repeat split.
    + destruct Hmatch as (-> & _ & _). exfalso. apply (Hnok n Hfuel Hok).
  - intros s0.
    destruct (startupLoop_outcome fuel (backoff_New startupBackoffConfig) s0)
      as (r & s1 & t & n0 & Hloop & Ht & Hs & Hw & Hr & _ & _ & _ & _ & Hnok & Hmatch).
    unfold Run, bind. rewrite Hloop. destruct r as [[]|].
    + left. exists s1. by destruct Hmatch as (_ & _ & Hrun & _).
    + right. destruct Hmatch as (-> & _ & Hl). exists s1, t. by repeat split.
Qed.

(** ** One generation *)

(** C7. Every [startup] that returns [nil] did exactly this, in this order:
    make a new queue and a new stop channel; register the namespace
    informer's handler on that queue, start its factory and wait for its
    cache to sync; the same for the rule informer; run one [syncLoki]; and
    only then launch the event loop on that queue. The channel did not exist
    before and is open afterwards, and queue and channel are now the
    component's. *)
Theorem startup_steps_in_order (s s' : State) :
  startup env s = Ok None s' ->
  let q := queues s in
  let ch := length (chans s) in
  trace s' = trace s ++
    [ NewQueue q; MakeStopChan ch;
      NamespaceAddEventHandler (Some q);
      NamespaceFactoryStart (Some ch); NamespaceWaitForCacheSync (Some ch);
      RuleAddEventHandler (Some q);
      RuleFactoryStart (Some ch); RuleWaitForCacheSync (Some ch);
      SyncLoki;
      GoEventLoop (Some q) ] /\
  chans s !! ch = None /\
  chans s' !! ch = Some false /\
  queue (comp s') = Some q /\
  informerStopChan (comp s') = Some ch.
Proof.
  intros Hst q ch.
  destruct (startup_returns s)
    as (r & s1 & Hst1 & Hch & _ & _ & _ & Hc & Hq & _ & _ & _ & _
        & t & Ht & _ & _ & _ & Hr).
  rewrite Hst in Hst1. injection Hst1 as <- <-. subst t.
  repeat split; try assumption.
  - apply lookup_ge_None. reflexivity.
  - rewrite Hch. apply lookup_new_chan.
Qed.

(** C10. Whatever becomes of a configuration update the loop received - it
    is applied, it fails in [init] or in [startup], or its processing panics
    - the counter [config_updates_total] is one higher at the end, and the
    increment is the first thing done: before the stop channel is closed,
    the queue shut down or [init] entered, and it is not done a second
    time. *)
Theorem config_update_counted_once (u : ConfigUpdate) (s : State) :
  let s' := final (onConfigUpdate env u s) in
  configUpdatesTotal (comp s') = S (configUpdatesTotal (comp s)) /\
  exists t, trace s' = trace s ++ ConfigUpdatesTotalInc :: t /\
            ConfigUpdatesTotalInc ∉ t.
Proof.
  destruct s as [c chs qs i n t]; destruct c; destruct u as [a errChan].
  unfold_all; cbn.
  repeat (split_step; cbn); (split; [reflexivity|]);
    eexists; trace_norm; (split; [try reflexivity; by rewrite app_nil_r|]);
    not_in_trace.
Qed.

(** ** The second loop of [Run] *)

(** An update whose processing returns has sent one result, on its own
    channel; when that result is [nil] the new configuration is applied:
    the ticker is reset to its interval and a new generation runs. *)
Lemma onConfigUpdate_ok (u : ConfigUpdate) (s s' : State) :
  onConfigUpdate env u s = Ok tt s' ->
  exists r t,
    trace s' = trace s ++ t /\
    all_sends t = [(cu_err u, r)] /\
    last t = Some (SendErr (cu_err u) r) /\
    args (comp s') = cu_args u /\
    is_Some (queue (comp s')) /\
    configUpdatesTotal (comp s') = S (configUpdatesTotal (comp s)) /\
    (r = None -> tickerOK s' /\ Running s' = true).
Proof.
  destruct s as [c chs qs i n t]; destruct c; destruct u as [a errChan].
  unfold_all; unfold tickerOK; cbn.
  repeat (split_step; cbn); intros H; simplify_eq;
    eexists _, _; cbn; trace_norm;
    (split; [reflexivity|]); (split; [reflexivity|]); (split; [reflexivity|]);
    (split; [reflexivity|]); (split; [by eexists|]); (split; [reflexivity|]);
    intros Hr; try discriminate.
  split; [reflexivity|].
  apply Running_after_startup; [reflexivity | reflexivity | in_trace].
Qed.

(** A tick with a queue in place: one [Add] of the full-sync event. *)
Lemma onTick_queue (s : State) (q : nat) :
  queue (comp s) = Some q ->
  onTick s = Ok tt (emit (QueueAdd q syncLokiEvent) s).
Proof.
  intros Hq. unfold onTick; unfold_go. rewrite Hq. reflexivity.
Qed.

(** An action changes the trace alone. *)
Lemma emit_frame (a : Action) (s : State) :
  comp (emit a s) = comp s /\ chans (emit a s) = chans s /\
  queues (emit a s) = queues s /\ inits (emit a s) = inits s /\
  startups (emit a s) = startups s /\ trace (emit a s) = trace s ++ [a].
Proof. destruct s; cbn. by repeat split. Qed.

(** Messages received after the loop came back to its [select]. *)
Lemma runLoop_app (msgs more : list Msg) (s s1 : State) :
  runLoop env msgs s = Ok Selecting s1 ->
  runLoop env (msgs ++ more) s = runLoop env more s1.
Proof.
  revert s. induction msgs as [|m msgs IH]; intros s; cbn.
  - unfold ret. intros H. by simplify_eq.
  - destruct m; unfold bind.
    + destruct (onConfigUpdate env u s); [apply IH | discriminate].
    + destruct (shutdown s); discriminate.
    + destruct (onTick s); [apply IH | discriminate].
Qed.

(** The readings of a trace go through its concatenation. *)
Lemma waits_app (t t' : list Action) : waits (t ++ t') = waits t ++ waits t'.
Proof. apply omap_app. Qed.

Lemma reports_app (t t' : list Action) : reports (t ++ t') = reports t ++ reports t'.
Proof. apply omap_app. Qed.

Lemma launches_app (t t' : list Action) : launches (t ++ t') = launches t ++ launches t'.
Proof. apply omap_app. Qed.

Lemma all_sends_app (t t' : list Action) :
  all_sends (t ++ t') = all_sends t ++ all_sends t'.
Proof. apply omap_app. Qed.

(** A run of the loop that is back at its [select]: every update it
    received was answered once, in order, and counted; the queue is in
    place; and unless the last update failed the ticker runs at the interval
    of the arguments in force. *)
Lemma runLoop_selecting (msgs : list Msg) (s s1 : State) :
  is_Some (queue (comp s)) ->
  runLoop env msgs s = Ok Selecting s1 ->
  exists t,
    trace s1 = trace s ++ t /\
    is_Some (queue (comp s1)) /\
    (all_sends t).*1 = cu_err <$> updates msgs /\
    configUpdatesTotal (comp s1)
      = (configUpdatesTotal (comp s) + length (updates msgs))%nat /\
    (lastUpdateFailed t = false -> (all_sends t = [] -> tickerOK s) -> tickerOK s1).
Proof.
  revert s. induction msgs as [|m msgs IH]; intros s Hq; cbn [runLoop].
  - unfold ret. intros H. simplify_eq. exists []. rewrite app_nil_r, Nat.add_0_r.
    repeat split; auto.
  - destruct m as [u| |]; unfold bind.
    + destruct (onConfigUpdate env u s) as [[] s'|] eqn:Hu; [|discriminate].
      intros Hloop.
      destruct (onConfigUpdate_ok u s s' Hu)
        as (r & tu & Htu & Hsu & _ & Ha & Hq' & Hcnt & Hnil).
      destruct (IH s' Hq' Hloop) as (t & Ht & Hq1 & Hs & Hc & Htick).
      exists (tu ++ t). rewrite app_assoc, <- Htu.
      split; [assumption|]. split; [assumption|].
      change (updates (RecvConfigUpdate u :: msgs)) with (u :: updates msgs).
      rewrite all_sends_app, Hsu. cbn [app fmap list_fmap fst length]. rewrite Hs.
      split; [reflexivity|]. split; [lia|].
      unfold lastUpdateFailed in *. rewrite all_sends_app, Hsu. cbn [app].
      intros Hlast _. apply Htick.
      * destruct (all_sends t) as [|x l]; [reflexivity|].
        by rewrite last_cons_cons in Hlast.
      * intros Hnone. rewrite Hnone in Hlast. cbn in Hlast.
        destruct r; [discriminate|]. by apply Hnil.
    + destruct (shutdown s); discriminate.
    + destruct Hq as [q Hq]. rewrite (onTick_queue s q Hq). intros Hloop.
      destruct (emit_frame (QueueAdd q syncLokiEvent) s)
        as (Hcomp & _ & _ & _ & _ & Htr).
      destruct (IH (emit (QueueAdd q syncLokiEvent) s)) as (t & Ht & Hq1 & Hs & Hc & Htick);
        [by rewrite Hcomp; eexists | assumption |].
      exists (QueueAdd q syncLokiEvent :: t).
      rewrite Ht, Htr. trace_norm. split; [reflexivity|]. split; [assumption|].
      unfold lastUpdateFailed, tickerOK in *. cbn.
      rewrite Hcomp in Hc, Htick.
      repeat split; assumption.
Qed.



(** Where an update that returned leaves the arguments and the ticker: the
    arguments are the update's, and the ticker runs at their interval when
    the clients could be built and at its period of before when not. *)
Lemma onConfigUpdate_ticker (u : ConfigUpdate) (s s' : State) :
  onConfigUpdate env u s = Ok tt s' ->
  args (comp s') = cu_args u /\
  inits s' = S (inits s) /\
  ticker (comp s') =
    match clientConstructionError env (inits s) (cu_args u) with
    | Some _ => ticker (comp s)
    | None => SyncInterval (cu_args u)
    end.
Proof.
  destruct s as [c chs qs i n t]; destruct c; destruct u as [a errChan].
  unfold clientConstructionError, ticker_Reset.
  unfold_all; cbn.
  repeat (split_step; cbn in *); intros H; simplify_eq; by repeat split.
Qed.

(** Ticks leave the component as it is. *)
Lemma ticks_keep_comp (ticks : list Msg) (s s1 : State) :
  updates ticks = [] ->
  runLoop env ticks s = Ok Selecting s1 ->
  comp s1 = comp s /\ inits s1 = inits s.
Proof.
  revert s. induction ticks as [|m ticks IH]; intros s Hu; cbn [runLoop].
  - unfold ret. intros H. by simplify_eq.
  - destruct m as [u| |]; [discriminate| |]; unfold bind.
    + destruct (shutdown s); discriminate.
    + destruct (onTick s) as [[] s'|] eqn:Htick; [|discriminate].
      intros Hloop. destruct (IH s' Hu Hloop) as (Hc & Hi).
      assert (Hs : comp s' = comp s /\ inits s' = inits s).
      { destruct s as [c chs qs i n tr]; destruct c.
        revert Htick. unfold_all; cbn.
        destruct queue0; cbn; intros H; by simplify_eq. }
      destruct Hs as (Hc' & Hi'). by rewrite Hc, Hi, Hc', Hi'.
Qed.

(** C9. Whenever the loop of [Run] is at its [select] and the ticker fires,
    it calls [Add] on the component's queue once, with the full-sync event,
    and is back at the [select]: that one call is all that happened, the
    component (its current state with it) and the channels are as before.
    The ticker that fires was made with the constructor's interval and is
    reset by every [init] that gets past the clients. While no update was
    received it runs at the constructor's interval. After an update it
    runs at that update's interval when the update's clients could be
    built - also when the update was then rejected for a selector or
    failed in [startup] - and at its period of before when they could not,
    although the arguments in force are the update's. So its period is the
    sync interval of the arguments in force whenever the last update did
    not fail, and need not be when it did. *)
Theorem tick_enqueues_one_full_sync (fuel : nat) (msgs : list Msg) (s s1 : State) :
  tickerOK s ->
  Run env fuel msgs s = Ok Selecting s1 ->
  exists q s2 t,
    queue (comp s1) = Some q /\
    Run env fuel (msgs ++ [TickerC]) s = Ok Selecting s2 /\
    trace s2 = trace s1 ++ [QueueAdd q syncLokiEvent] /\
    comp s2 = comp s1 /\
    chans s2 = chans s1 /\
    trace s1 = trace s ++ t /\
    (lastUpdateFailed t = false -> tickerOK s1) /\
    (updates msgs = [] ->
     args (comp s1) = args (comp s) /\ ticker (comp s1) = ticker (comp s)) /\
    (forall pre u ticks s0,
       msgs = pre ++ RecvConfigUpdate u :: ticks ->
       updates ticks = [] ->
       Run env fuel pre s = Ok Selecting s0 ->
       args (comp s1) = cu_args u /\
       ticker (comp s1) =
         match clientConstructionError env (inits s0) (cu_args u) with
         | Some _ => ticker (comp s0)
         | None => SyncInterval (cu_args u)
         end).
Proof.
  intros Htk. unfold Run, bind.
  destruct (startupLoop_outcome fuel (backoff_New startupBackoffConfig) s)
    as (r & s0 & t0 & n0 & Hloop & Ht0 & Hs0 & _ & _ & _ & _ & Ha & Htk0 & _ & Hmatch).
  rewrite Hloop. destruct r as [[]|]; [|discriminate].
  destruct Hmatch as (_ & _ & Hrun & _). intros Hsel.
  apply andb_true_iff in Hrun as [Hlive _].
  destruct (live_inv s0 Hlive) as (ch0 & q0 & _ & _ & Hq0).
  destruct (runLoop_selecting msgs s0 s1) as (t & Ht & [q Hq] & _ & _ & Htick);
    [by eexists | assumption |].
  destruct (emit_frame (QueueAdd q syncLokiEvent) s1)
    as (Hcomp & Hch & _ & _ & _ & Htr).
  exists q, (emit (QueueAdd q syncLokiEvent) s1), (t0 ++ t).
  split; [assumption|]. split.
  { rewrite (runLoop_app msgs [TickerC] s0 s1 Hsel). cbn [runLoop]. unfold bind.
    rewrite (onTick_queue s1 q Hq). reflexivity. }
  repeat (split; [assumption|]).
  split; [by rewrite Ht, Ht0, app_assoc|].
  split; [|split].
  - unfold lastUpdateFailed in *. rewrite all_sends_app, Hs0. cbn [app].
    intros Hlast. apply Htick; [assumption|].
    intros _. unfold tickerOK in *. by rewrite Htk0, Ha.
  - intros Hnone. destruct (ticks_keep_comp msgs s0 s1 Hnone Hsel) as (Hc & _).
    by rewrite Hc, Ha, Htk0.
  - intros pre u ticks s0' -> Hnone Hpre.
    rewrite (runLoop_app pre (RecvConfigUpdate u :: ticks) s0 s0' Hpre) in Hsel.
    cbn [runLoop] in Hsel. unfold bind in Hsel.
    destruct (onConfigUpdate env u s0') as [[] s'|] eqn:Hu; [|discriminate].
    destruct (onConfigUpdate_ticker u s0' s' Hu) as (Hargs & _ & Hticker).
    destruct (ticks_keep_comp ticks s' s1 Hnone Hsel) as (Hc & _).
    by rewrite Hc.
Qed.

(** ** Failing updates and failing client construction *)

(** An update whose clients cannot be built: the whole of what happens. *)
Lemma onConfigUpdate_client_failure (s : State) (u : ConfigUpdate) (ch q : nat)
    (e : error) :
  informerStopChan (comp s) = Some ch ->
  chans s !! ch = Some false ->
  queue (comp s) = Some q ->
  clientConstructionError env (inits s) (cu_args u) = Some e ->
  exists s',
    onConfigUpdate env u s = Ok tt s' /\
    trace s' = trace s ++
      [ ConfigUpdatesTotalInc; CloseStopChan ch; QueueShutDownWithDrain q;
        LogInfo "initializing with new configuration";
        LogError "updating configuration failed" e;
        ReportUnhealthy e;
        SendErr (cu_err u) (Some e) ] /\
    inits s' = S (inits s) /\
    startups s' = startups s /\
    health (comp s') = HealthTypeUnhealthy e /\
    stopChanOpen s' = false.
Proof.
  destruct s as [c chs qs i n t]; destruct c; destruct u as [a errChan]; cbn.
  intros -> Hopen ->.
  assert (Hlt : (ch < length chs)%nat) by (eapply lookup_lt_Some; eauto).
  unfold clientConstructionError, stopChanOpen.
  unfold_all; cbn. rewrite Hopen; cbn.
  repeat (split_step; cbn in *); intros H; simplify_eq;
    eexists; (split; [reflexivity|]); cbn; trace_norm;
    rewrite list_lookup_insert_eq by assumption; by repeat split.
Qed.

(** C2, as the code has it. An update received by a [Running] loop that
    fails - in [init] or in [startup] - has its error sent once, on the
    caller's response channel, as the last thing done, and reported as
    unhealthy. By then the prior generation is gone: its stop channel was
    closed and its queue shut down with drain before the new configuration
    was looked at, the new arguments have replaced the previous ones, and no
    event loop was launched. *)
Theorem failed_update_surfaced_after_shutdown (s s' : State) (u : ConfigUpdate)
    (e : error) :
  Running s = true ->
  0 < SyncInterval (cu_args u) ->
  onConfigUpdate env u s = Ok tt s' ->
  last (trace s') = Some (SendErr (cu_err u) (Some e)) ->
  exists ch q t,
    informerStopChan (comp s) = Some ch /\
    queue (comp s) = Some q /\
    trace s' = trace s ++ [ConfigUpdatesTotalInc; CloseStopChan ch;
                           QueueShutDownWithDrain q] ++ t /\
    all_sends t = [(cu_err u, Some e)] /\
    ReportUnhealthy e ∈ t /\
    health (comp s') = HealthTypeUnhealthy e /\
    chans s' !! ch = Some true /\
    args (comp s') = cu_args u /\
    (forall x, GoEventLoop x ∉ t).
Proof.
  intros Hrun Hpos Hu Hlast.
  apply andb_true_iff in Hrun as [Hlive _].
  destruct (live_inv s Hlive) as (ch & q & Hc & Hopen & Hq).
  destruct (onConfigUpdate_live s u ch q Hc Hopen Hq Hpos)
    as (r & s1 & t & Hu1 & Ht & Hs & Hl & Ha & Hcl & _ & Hmatch).
  rewrite Hu in Hu1. injection Hu1 as <-.
  assert (r = Some e) as ->.
  { rewrite Ht, !last_app, Hl in Hlast. by simplify_eq. }
  destruct Hmatch as (Hh & Hrep & Hno).
  exists ch, q, t. by repeat split.
Qed.

(** C6, as the code has it. The clients are built by [init] only, and a
    failure there is not retried. In [NewComponent] it is returned, wrapped,
    with no component: nothing is reported and no backoff is waited on. In
    an update received by a [Running] loop it is logged, reported as
    unhealthy and sent to the caller, after the prior generation was shut
    down, and no [startup] is attempted. The backoff loop of [Run] retries
    [startup] alone: it never enters [init]. *)
Theorem client_failure_returned_not_retried (a : Arguments) (errChan : nat)
    (s sr : State) (e er : error) :
  0 < SyncInterval a ->
  clientConstructionError env (inits s) a = Some e ->
  Running sr = true ->
  clientConstructionError env (inits sr) a = Some er ->
  (exists s',
     NewComponent env a s
       = Ok (None, Some (Errorf "initializing component failed: " e)) s' /\
     trace s' = trace s ++ [LogInfo "initializing with new configuration"]) /\
  (exists ch q s',
     informerStopChan (comp sr) = Some ch /\ queue (comp sr) = Some q /\
     onConfigUpdate env {| cu_args := a; cu_err := errChan |} sr = Ok tt s' /\
     trace s' = trace sr ++
       [ ConfigUpdatesTotalInc; CloseStopChan ch; QueueShutDownWithDrain q;
         LogInfo "initializing with new configuration";
         LogError "updating configuration failed" er;
         ReportUnhealthy er;
         SendErr errChan (Some er) ] /\
     startups s' = startups sr /\
     stopChanOpen s' = false) /\
  (forall fuel b s0, exists r s1,
     startupLoop env fuel b s0 = Ok r s1 /\ inits s1 = inits s0).
Proof.
  intros Hpos Hfail Hrun Hfailr. split; [|split].
  - unfold NewComponent. destruct (decide (SyncInterval a <= 0)) as [?|_]; [lia|].
    unfold bind at 1. unfold update, modify.
    destruct (init_client_failure (with_comp (fun _ => newComponent env a) s) e)
      as (s' & Hinit & Ht & _).
    { destruct s; exact Hfail. }
    exists s'. unfold bind, ret. rewrite Hinit. split; [reflexivity|].
    rewrite Ht. by destruct s.
  - apply andb_true_iff in Hrun as [Hlive _].
    destruct (live_inv sr Hlive) as (ch & q & Hc & Hopen & Hq).
    destruct (onConfigUpdate_client_failure sr
                {| cu_args := a; cu_err := errChan |} ch q er Hc Hopen Hq Hfailr)
      as (s' & Hu & Ht & _ & Hn & _ & Hclosed).
    exists ch, q, s'. by repeat split.
  - intros fuel b s0.
    destruct (startupLoop_outcome fuel b s0)
      as (r & s1 & t & n0 & Hloop & _ & _ & _ & _ & Hi & _).
    by exists r, s1.
Qed.

(** ** After an update that failed in [init] *)

(** An update that failed without reaching [startup] leaves the component
    with the stop channel it closed: nothing has replaced it. *)
Lemma failed_init_keeps_closed_channel (s s' : State) (u : ConfigUpdate) (ch q : nat) :
  informerStopChan (comp s) = Some ch ->
  chans s !! ch = Some false ->
  queue (comp s) = Some q ->
  onConfigUpdate env u s = Ok tt s' ->
  startups s' = startups s ->
  informerStopChan (comp s') = Some ch /\
  chans s' !! ch = Some true /\
  queue (comp s') = Some q /\
  exists e, last (trace s') = Some (SendErr (cu_err u) (Some e)).
Proof.
  destruct s as [c chs qs i n t]; destruct c; destruct u as [a errChan]; cbn.
  intros -> Hopen ->.
  assert (Hlt : (ch < length chs)%nat) by (eapply lookup_lt_Some; eauto).
  unfold_all; cbn. rewrite Hopen; cbn.
  repeat (split_step; cbn); intros H; simplify_eq; cbn; intros Hn; try lia;
    rewrite list_lookup_insert_eq by assumption;
    repeat split; eexists; rewrite last_snoc; reflexivity.
Qed.

(** The next [shutdown] then closes that channel a second time: the loop
    panics on cancellation and on the next update alike, and the next
    update is counted but never answered. *)
Lemma shutdown_after_failed_init (s s' : State) (u u' : ConfigUpdate)
    (rest : list Msg) :
  Running s = true ->
  onConfigUpdate env u s = Ok tt s' ->
  startups s' = startups s ->
  runLoop env (CtxDone :: rest) s' = Panic "close of closed channel" s' /\
  exists s'',
    runLoop env (RecvConfigUpdate u' :: rest) s' = Panic "close of closed channel" s'' /\
    trace s'' = trace s' ++ [ConfigUpdatesTotalInc].
Proof.
  intros Hrun Hu Hn.
  apply andb_true_iff in Hrun as [Hlive _].
  destruct (live_inv s Hlive) as (ch & q & Hc & Hopen & Hq).
  destruct (failed_init_keeps_closed_channel s s' u ch q Hc Hopen Hq Hu Hn)
    as (Hc' & Hclosed & Hq' & _).
  split.
  - cbn [runLoop]. unfold bind. by rewrite (shutdown_closed s' ch Hc' Hclosed).
  - exists (emit ConfigUpdatesTotalInc (with_comp inc_configUpdatesTotal s')).
    cbn [runLoop]. unfold onConfigUpdate, bind, update, act, modify.
    rewrite (shutdown_closed _ ch).
    + split; [reflexivity|]. by destruct s'.
    + by destruct s' as [[] ? ? ? ? ?].
    + by destruct s' as [[] ? ? ? ? ?].
Qed.

(** ** Callers of [Update] beside the loop *)

(** The sends on one channel are those of all sends that name it. *)
Lemma sends_all_sends (ch : nat) (t : list Action) :
  sends ch t
  = omap (fun p : nat * option error =>
            if decide (p.1 = ch) then Some p.2 else None) (all_sends t).
Proof.
  unfold sends, all_sends.
  induction t as [|a t IH]; [reflexivity|].
  destruct a; cbn in *; try exact IH.
  destruct (decide (errChan = ch)); cbn; by rewrite IH.
Qed.

Lemma sends_app (ch : nat) (t t' : list Action) :
  sends ch (t ++ t') = sends ch t ++ sends ch t'.
Proof. apply omap_app. Qed.

Lemma sends_none (ch : nat) (t : list Action) :
  all_sends t = [] -> sends ch t = [].
Proof. intros H. by rewrite sends_all_sends, H. Qed.

Lemma sends_one (ch c : nat) (r : option error) (t : list Action) :
  all_sends t = [(c, r)] ->
  sends ch t = if decide (c = ch) then [r] else [].
Proof. intros H. rewrite sends_all_sends, H. cbn. by destruct (decide (c = ch)). Qed.

(** A panic while an update is processed comes before anything is sent. *)
Lemma onConfigUpdate_panic (u : ConfigUpdate) (s s' : State) (msg : string) :
  onConfigUpdate env u s = Panic msg s' ->
  exists t, trace s' = trace s ++ t /\ all_sends t = [].
Proof.
  destruct s as [c chs qs i n t]; destruct c; destruct u as [a errChan].
  unfold_all; cbn.
  repeat (split_step; cbn); intros H; simplify_eq;
    eexists; cbn; trace_norm; (split; [reflexivity|]); reflexivity.
Qed.

(** A tick and a shutdown send nothing, whether they return or panic. *)
Lemma onTick_trace (s : State) :
  exists t, trace (final (onTick s)) = trace s ++ t /\ all_sends t = [].
Proof.
  destruct s as [c chs qs i n t]; destruct c.
  unfold_all; cbn. destruct queue0; cbn.
  - by eexists.
  - exists []. by rewrite app_nil_r.
Qed.

Lemma shutdown_trace (s : State) :
  exists t, trace (final (shutdown s)) = trace s ++ t /\ all_sends t = [].
Proof.
  destruct s as [c chs qs i n t]; destruct c.
  unfold_all; cbn.
  repeat (split_step; cbn);
    first [ by exists []; rewrite app_nil_r
          | eexists; trace_norm; split; reflexivity ].
Qed.

(** An update that was processed stops at the send of its result. *)
Lemma onConfigUpdate_pendingSend (u : ConfigUpdate) (s s' : State) :
  onConfigUpdate env u s = Ok tt s' ->
  exists r t,
    pendingSend s' = Some (cu_err u, r) /\
    trace s' = trace s ++ t /\
    all_sends t = [(cu_err u, r)].
Proof.
  intros Hu.
  destruct (onConfigUpdate_ok u s s' Hu) as (r & t & Ht & Hs & Hl & _).
  exists r, t. repeat split; try assumption.
  unfold pendingSend. apply last_Some in Hl as [t' ->].
  by rewrite Ht, app_assoc, last_snoc.
Qed.

(** A schedule with one more step at its end. *)
Lemma exec_snoc (sched : list Label) (l : Label) (sys : System) :
  exec env (sched ++ [l]) sys
  = match exec env sched sys with
    | Some sys' => step env l sys'
    | None => None
    end.
Proof.
  revert sys. induction sched as [|l' sched IH]; intros sys; cbn.
  - by destruct (step env l sys).
  - destruct (step env l' sys); [apply IH | reflexivity].
Qed.

(** [Inv] holds before any step, and every step keeps it. *)
Lemma Inv_atSelect (s : State) : Inv (trace s) [] (atSelect s).
Proof.
  exists []. cbn. rewrite app_nil_r. repeat split; intros; by simplify_eq.
Qed.

Lemma step_Inv (t0 : list Action) (sched : list Label) (l : Label)
    (sys sys' : System) :
  Inv t0 sched sys ->
  step env l sys = Some sys' ->
  Inv t0 (sched ++ [l]) sys'.
Proof.
  intros (new & Ht & HS & HR & HG & HN & HL & HU) Hstep.
  destruct sys as [lp cs s]; cbn in *.
  destruct l as [a|ch|ch| |]; unfold Update in Hstep;
    cbn [step loop callers st] in Hstep.
  - (* Call *)
    simplify_eq. exists new. cbn. split; [assumption|].
    split; [|split; [|split; [|split; [|split]]]].
    + intros ch u Hc. apply lookup_app_Some in Hc as [Hc|[Hge Hc]]; [by apply HS|].
      apply list_lookup_singleton_Some in Hc as [Hz Hu]. simplify_eq. cbn.
      split; [lia|]. apply HN. lia.
    + intros ch e Hc. apply lookup_app_Some in Hc as [Hc|[Hge Hc]].
      * destruct (HR ch e Hc) as (He & Hb & Hm). repeat split; try assumption.
        apply elem_of_app; by left.
      * apply list_lookup_singleton_Some in Hc as [_ Hu]. discriminate.
    + intros ch r Hc. apply lookup_app_Some in Hc as [Hc|[Hge Hc]].
      * destruct (HG ch r Hc) as (Hd & Hs). split; [|assumption].
        apply elem_of_app; by left.
      * apply list_lookup_singleton_Some in Hc as [_ Hu]. discriminate.
    + intros ch Hge. rewrite length_app in Hge. cbn in Hge. apply HN. lia.
    + intros e r Hl. rewrite lookup_app_l; [by apply (HL e r)|].
      eapply lookup_lt_Some. by apply (HL e r).
    + intros ch ch' e e' Hc Hc'.
      apply lookup_app_Some in Hc as [Hc|[_ Hc]];
        [|apply list_lookup_singleton_Some in Hc as [_ Hu]; discriminate].
      apply lookup_app_Some in Hc' as [Hc'|[_ Hc']];
        [|apply list_lookup_singleton_Some in Hc' as [_ Hu]; discriminate].
      eauto.
  - (* Begin *)
    destruct lp; try discriminate.
    destruct (cs !! ch) as [[u| |]|] eqn:Hch; try discriminate.
    destruct (HS ch u Hch) as (Hu & Hnone).
    assert (Hlt : (ch < length cs)%nat) by (eapply lookup_lt_Some; eauto).
    assert (Hnorecv : forall c e, cs !! c = Some (Receiving e) -> False).
    { intros c e Hc. by destruct (HR c e Hc) as (_ & _ & ?). }
    destruct (onConfigUpdate env u s) as [[] s1|msg s1] eqn:Hupd.
    + destruct (onConfigUpdate_pendingSend u s s1 Hupd) as (r & t & Hp & Ht1 & Hs1).
      rewrite Hp in Hstep. simplify_eq.
      exists (new ++ t). cbn. split; [by rewrite Ht1, Ht, app_assoc|].
      split; [|split; [|split; [|split; [|split]]]].
      * intros c u' Hc. apply list_lookup_insert_Some in Hc as [(_ & Hc & _)|[Hne Hc]];
          [discriminate|].
        destruct (HS c u' Hc) as (Hu' & Hn'). split; [assumption|].
        rewrite sends_app, Hn', (sends_one c _ r t Hs1).
        by destruct (decide (cu_err u = c)).
      * intros c e Hc. apply list_lookup_insert_Some in Hc as [(<- & Hc & _)|[Hne Hc]].
        -- simplify_eq. repeat split; [apply elem_of_app; right; by left|].
           rewrite sends_app, Hnone, (sends_one _ _ r t Hs1).
           by destruct (decide (cu_err u = cu_err u)).
        -- by destruct (Hnorecv c e Hc).
      * intros c r' Hc. apply list_lookup_insert_Some in Hc as [(_ & Hc & _)|[Hne Hc]];
          [discriminate|].
        destruct (HG c r' Hc) as (Hd & Hs'). split; [apply elem_of_app; by left|].
        rewrite sends_app, Hs', (sends_one c _ r t Hs1).
        destruct (decide (cu_err u = c)); [congruence|by rewrite app_nil_r].
      * intros c Hge. rewrite length_insert in Hge.
        rewrite sends_app, (HN c Hge), (sends_one c _ r t Hs1).
        destruct (decide (cu_err u = c)); [lia|reflexivity].
      * intros e r' Hl. simplify_eq. by apply list_lookup_insert_eq.
      * intros c c' e e' Hc Hc'.
        apply list_lookup_insert_Some in Hc as [(<- & _ & _)|[_ Hc]];
          [|by destruct (Hnorecv c e Hc)].
        apply list_lookup_insert_Some in Hc' as [(<- & _ & _)|[_ Hc']];
          [reflexivity|by destruct (Hnorecv c' e' Hc')].
    + destruct (onConfigUpdate_panic u s s1 msg Hupd) as (t & Ht1 & Hs1).
      simplify_eq.
      exists (new ++ t). cbn. split; [by rewrite Ht1, Ht, app_assoc|].
      split; [|split; [|split; [|split; [|split]]]].
      * intros c u' Hc. apply list_lookup_insert_Some in Hc as [(_ & Hc & _)|[Hne Hc]];
          [discriminate|].
        destruct (HS c u' Hc) as (Hu' & Hn'). split; [assumption|].
        by rewrite sends_app, Hn', (sends_none c t Hs1).
      * intros c e Hc. apply list_lookup_insert_Some in Hc as [(<- & Hc & _)|[Hne Hc]].
        -- simplify_eq. repeat split; [apply elem_of_app; right; by left|].
           by rewrite sends_app, Hnone, (sends_none _ t Hs1).
        -- by destruct (Hnorecv c e Hc).
      * intros c r' Hc. apply list_lookup_insert_Some in Hc as [(_ & Hc & _)|[Hne Hc]];
          [discriminate|].
        destruct (HG c r' Hc) as (Hd & Hs'). split; [apply elem_of_app; by left|].
        by rewrite sends_app, Hs', (sends_none c t Hs1), app_nil_r.
      * intros c Hge. rewrite length_insert in Hge.
        by rewrite sends_app, (HN c Hge), (sends_none c t Hs1).
      * intros e r' Hl. discriminate.
      * intros c c' e e' Hc Hc'.
        apply list_lookup_insert_Some in Hc as [(<- & _ & _)|[_ Hc]];
          [|by destruct (Hnorecv c e Hc)].
        apply list_lookup_insert_Some in Hc' as [(<- & _ & _)|[_ Hc']];
          [reflexivity|by destruct (Hnorecv c' e' Hc')].
  - (* Deliver *)
    destruct lp as [|e r| |]; try discriminate.
    destruct (cs !! ch) as [[|e'|]|] eqn:Hch; try discriminate.
    destruct (decide (e = e')) as [<-|]; [|discriminate]. simplify_eq.
    destruct (HR ch e Hch) as (-> & Hb & _ & Hsr).
    assert (Hlt : (ch < length cs)%nat) by (eapply lookup_lt_Some; eauto).
    exists new. cbn. split; [assumption|].
    split; [|split; [|split; [|split; [|split]]]].
    + intros c u' Hc. apply list_lookup_insert_Some in Hc as [(_ & Hc & _)|[Hne Hc]];
        [discriminate|]. by apply HS.
    + intros c e Hc. apply list_lookup_insert_Some in Hc as [(_ & Hc & _)|[Hne Hc]];
        [discriminate|]. destruct (HR c e Hc) as (_ & _ & He & _). congruence.
    + intros c r' Hc. apply list_lookup_insert_Some in Hc as [(<- & Hc & _)|[Hne Hc]].
      * simplify_eq. split; [apply elem_of_app; right; by left|assumption].
      * destruct (HG c r' Hc) as (Hd & Hs'). split; [apply elem_of_app; by left|assumption].
    + intros c Hge. rewrite length_insert in Hge. by apply HN.
    + intros e r' Hl. discriminate.
    + intros c c' e e' Hc Hc'.
      apply list_lookup_insert_Some in Hc as [(_ & Hc & _)|[_ Hc]]; [discriminate|].
      apply list_lookup_insert_Some in Hc' as [(_ & Hc' & _)|[_ Hc']]; [discriminate|].
      eauto.
  - (* Tick *)
    destruct lp; try discriminate.
    assert (Hnorecv : forall c e, cs !! c = Some (Receiving e) -> False).
    { intros c e Hc. by destruct (HR c e Hc) as (_ & _ & ?). }
    destruct (onTick_trace s) as (t & Ht1 & Hs1).
    assert (exists lp' s1, sys' = {| loop := lp'; callers := cs; st := s1 |} /\
                           trace s1 = trace s ++ t /\
                           forall e r, lp' <> SendingErr e r) as (lp' & s1 & -> & Ht2 & Hlp).
    { destruct (onTick s) as [[] s1|msg s1]; simplify_eq; eauto. }
    exists (new ++ t). cbn. split; [by rewrite Ht2, Ht, app_assoc|].
    split; [|split; [|split; [|split; [|split]]]].
    + intros c u' Hc. destruct (HS c u' Hc) as (Hu' & Hn'). split; [assumption|].
      by rewrite sends_app, Hn', (sends_none c t Hs1).
    + intros c e Hc. by destruct (Hnorecv c e Hc).
    + intros c r' Hc. destruct (HG c r' Hc) as (Hd & Hs'). split; [apply elem_of_app; by left|].
      by rewrite sends_app, Hs', (sends_none c t Hs1), app_nil_r.
    + intros c Hge. by rewrite sends_app, (HN c Hge), (sends_none c t Hs1).
    + intros e r' Hl. by destruct (Hlp e r').
    + intros c c' e e' Hc Hc'. by destruct (Hnorecv c e Hc).
  - (* Cancel *)
    destruct lp; try discriminate.
    assert (Hnorecv : forall c e, cs !! c = Some (Receiving e) -> False).
    { intros c e Hc. by destruct (HR c e Hc) as (_ & _ & ?). }
    destruct (shutdown_trace s) as (t & Ht1 & Hs1).
    assert (exists lp' s1, sys' = {| loop := lp'; callers := cs; st := s1 |} /\
                           trace s1 = trace s ++ t /\
                           forall e r, lp' <> SendingErr e r) as (lp' & s1 & -> & Ht2 & Hlp).
    { destruct (shutdown s) as [[] s1|msg s1]; simplify_eq; eauto. }
    exists (new ++ t). cbn. split; [by rewrite Ht2, Ht, app_assoc|].
    split; [|split; [|split; [|split; [|split]]]].
    + intros c u' Hc. destruct (HS c u' Hc) as (Hu' & Hn'). split; [assumption|].
      by rewrite sends_app, Hn', (sends_none c t Hs1).
    + intros c e Hc. by destruct (Hnorecv c e Hc).
    + intros c r' Hc. destruct (HG c r' Hc) as (Hd & Hs'). split; [apply elem_of_app; by left|].
      by rewrite sends_app, Hs', (sends_none c t Hs1), app_nil_r.
    + intros c Hge. by rewrite sends_app, (HN c Hge), (sends_none c t Hs1).
    + intros e r' Hl. by destruct (Hlp e r').
    + intros c c' e e' Hc Hc'. by destruct (Hnorecv c e Hc).
Qed.

(** So [Inv] holds after every schedule. *)
Lemma exec_Inv (s : State) (sched : list Label) (sys : System) :
  exec env sched (atSelect s) = Some sys ->
  Inv (trace s) sched sys.
Proof.
  revert sys. induction sched as [|l sched IH] using rev_ind; intros sys.
  - cbn. intros H. simplify_eq. apply Inv_atSelect.
  - rewrite exec_snoc. destruct (exec env sched (atSelect s)) as [sys1|]; [|discriminate].
    intros Hstep. eapply step_Inv; eauto.
Qed.

(** The loop takes an update whenever it is at its [select] and a caller is
    sending: the model does not block a receive that Go would make. *)
Lemma Begin_enabled (sys : System) (ch : nat) (u : ConfigUpdate) :
  loop sys = AtSelect ->
  callers sys !! ch = Some (Sending u) ->
  is_Some (step env (Begin ch) sys).
Proof.
  intros Hl Hc. unfold step. rewrite Hl, Hc.
  destruct (onConfigUpdate env u (st sys)) as [[] s1|msg s1] eqn:Hupd; [|by eexists].
  destruct (onConfigUpdate_pendingSend u _ s1 Hupd) as (r & t & -> & _).
  by eexists.
Qed.

(** Every schedule that can be followed is serialized. *)
Lemma exec_serialized (sched : list Label) (t0 : list Action) (h : list Label)
    (busy : option nat) (sys sys' : System) :
  Inv t0 h sys ->
  busyAt busy (loop sys) ->
  exec env sched sys = Some sys' ->
  serialized busy sched = true.
Proof.
  revert h busy sys. induction sched as [|l sched IH]; intros h busy sys HI Hb; [reflexivity|].
  cbn [exec]. destruct (step env l sys) as [sys1|] eqn:Hstep; [|discriminate].
  intros Hexec.
  pose proof (step_Inv t0 h l sys sys1 HI Hstep) as HI1.
  destruct HI as (new & _ & HS & HR & _).
  destruct sys as [lp cs s]; cbn in *.
  destruct l as [a|ch|ch| |]; unfold Update in Hstep;
    cbn [step loop callers st] in Hstep; cbn [serialized].
  - simplify_eq. eapply IH; eauto.
  - destruct lp; try discriminate. cbn in Hb. subst busy.
    destruct (cs !! ch) as [[u| |]|] eqn:Hch; try discriminate.
    destruct (HS ch u Hch) as (Hu & _).
    destruct (onConfigUpdate env u s) as [[] s1|msg s1] eqn:Hupd.
    + destruct (onConfigUpdate_pendingSend u s s1 Hupd) as (r & t & Hp & _).
      rewrite Hp in Hstep. simplify_eq. eapply IH; eauto. reflexivity.
    + simplify_eq. eapply IH; eauto. exact I.
  - destruct lp as [|e r| |]; try discriminate. cbn in Hb. subst busy.
    destruct (cs !! ch) as [[|e'|]|] eqn:Hch; try discriminate.
    destruct (decide (e = e')) as [<-|]; [|discriminate]. simplify_eq.
    destruct (HR ch e Hch) as (-> & _).
    rewrite bool_decide_eq_true_2 by reflexivity. cbn.
    eapply IH; eauto. reflexivity.
  - destruct lp; try discriminate. cbn in Hb. subst busy.
    destruct (onTick s) as [[] s1|msg s1]; simplify_eq; eapply IH; eauto;
      [reflexivity | exact I].
  - destruct lp; try discriminate. cbn in Hb. subst busy.
    destruct (shutdown s) as [[] s1|msg s1]; simplify_eq; eapply IH; eauto;
      [reflexivity | exact I].
Qed.

(** C4. Calls of [Update] from any number of goroutines, in any
    interleaving with the loop, are served one at a time: in every
    schedule the goroutines can follow from a loop at its [select], an
    update begins only when no other is between its begin and the delivery
    of its result, and what is delivered then is the result of that
    update. So at most one caller is ever waiting on its response channel;
    and a caller that returned from [Update] was delivered the one result
    the loop sent on that caller's own channel, and returned it. *)
Theorem updates_serialized (s : State) (sched : list Label) (sys : System) :
  exec env sched (atSelect s) = Some sys ->
  serialized None sched = true /\
  (forall ch ch' e e',
     callers sys !! ch = Some (Receiving e) ->
     callers sys !! ch' = Some (Receiving e') -> ch = ch') /\
  (forall ch e,
     callers sys !! ch = Some (Receiving e) -> e = ch /\ Begin ch ∈ sched) /\
  (forall ch r,
     callers sys !! ch = Some (Got r) ->
     Deliver ch ∈ sched /\
     sends ch (drop (length (trace s)) (trace (st sys))) = [r]).
Proof.
  intros Hexec. split.
  - eapply exec_serialized; [apply Inv_atSelect | reflexivity | exact Hexec].
  - destruct (exec_Inv s sched sys Hexec) as (new & Ht & _ & HR & HG & _ & _ & HU).
    split; [exact HU|]. split.
    + intros ch e Hc. destruct (HR ch e Hc) as (He & Hb & _). by split.
    + intros ch r Hc. rewrite Ht, drop_app_length. by apply HG.
Qed.

(** * Further properties of the lifecycle *)

(** ** [shutdown] *)

(** X1. [shutdown] returns exactly on a live generation - an open stop
    channel and a queue - and then does its two calls and nothing else.
    In every other state it panics, and the queue has not been shut down.
    When the stop channel is not open, [close] panics and nothing has
    happened at all: on a [nil] channel with "close of nil channel", on a
    closed one with "close of closed channel". When the stop channel is
    open and the queue is [nil], the channel was closed first - that close
    is the one thing that happened - and the call on the queue panics. *)
Theorem shutdown_returns_iff_live (s : State) :
  (live s = true /\
   exists ch q,
     informerStopChan (comp s) = Some ch /\ queue (comp s) = Some q /\
     shutdown s = Ok tt (afterShutdown ch q s)) \/
  (live s = false /\
   exists msg s' t,
     shutdown s = Panic msg s' /\
     trace s' = trace s ++ t /\
     (forall q, QueueShutDownWithDrain q ∉ t) /\
     (stopChanOpen s = false -> s' = s) /\
     (informerStopChan (comp s) = None -> msg = "close of nil channel") /\
     (forall ch, informerStopChan (comp s) = Some ch ->
                 chans s !! ch = Some true -> msg = "close of closed channel") /\
     (stopChanOpen s = true ->
      queue (comp s) = None /\
      msg = "runtime error: invalid memory address or nil pointer dereference" /\
      exists ch,
        informerStopChan (comp s) = Some ch /\
        t = [CloseStopChan ch] /\
        chans s' = <[ch:=true]> (chans s) /\
        chans s' !! ch = Some true /\
        comp s' = comp s)).
Proof.
  destruct (live s) eqn:Hlive.
  - left. split; [reflexivity|].
    destruct (live_inv s Hlive) as (ch & q & Hc & Hopen & Hq).
    exists ch, q. repeat split; try assumption. by apply shutdown_live.
  - right. split; [reflexivity|].
    destruct s as [c chs qs i n t]; destruct c.
    unfold live, stopChanOpen in *. unfold_all; cbn in *.
    destruct informerStopChan0 as [ch|]; cbn.
    + destruct (chs !! ch) as [[|]|] eqn:Hch; cbn.
      * eexists _, _, []. rewrite app_nil_r.
        split; [reflexivity|]. split; [reflexivity|].
        split; [intros q; apply not_elem_of_nil|].
        split; [by intros _|]. split; [discriminate|].
        split; [reflexivity|].
        rewrite bool_decide_eq_false_2 by discriminate. discriminate.
      * rewrite bool_decide_eq_true_2 in Hlive by reflexivity. cbn in Hlive.
        destruct queue0 as [q|]; cbn.
        -- rewrite bool_decide_eq_true_2 in Hlive by (by eexists). discriminate.
        -- eexists _, _, _. trace_norm. split; [reflexivity|].
           split; [reflexivity|]. split; [intros q; not_in_trace|].
           rewrite bool_decide_eq_true_2 by reflexivity.
           split; [discriminate|]. split; [discriminate|].
           split; [intros ch' H1 H2; simplify_eq|].
           intros _. split; [reflexivity|]. split; [reflexivity|].
           exists ch. repeat split.
           apply list_lookup_insert_eq. by eapply lookup_lt_Some.
      * eexists _, _, []. rewrite app_nil_r.
        split; [reflexivity|]. split; [reflexivity|].
        split; [intros q; apply not_elem_of_nil|].
        split; [by intros _|]. split; [discriminate|].
        split; [intros ch' H1 H2; simplify_eq|].
        rewrite bool_decide_eq_false_2 by discriminate. discriminate.
    + eexists _, _, []. rewrite app_nil_r.
      split; [reflexivity|]. split; [reflexivity|].
      split; [intros q; apply not_elem_of_nil|].
      split; [by intros _|]. split; [reflexivity|].
      split; [discriminate|]. discriminate.
Qed.

(** X2. [shutdown] cannot be repeated: after a [shutdown] that returned,
    the component still holds the channel it closed, and the next
    [shutdown] panics on it before touching the queue. *)
Theorem second_shutdown_panics (s s' : State) :
  shutdown s = Ok tt s' ->
  stopChanOpen s' = false /\
  informerStopChan (comp s') = informerStopChan (comp s) /\
  shutdown s' = Panic "close of closed channel" s'.
Proof.
  destruct s as [c chs qs i n t]; destruct c.
  unfold stopChanOpen. unfold_all; cbn.
  destruct informerStopChan0 as [ch|]; [cbn|discriminate].
  destruct (chs !! ch) as [[|]|] eqn:Hch; cbn; try discriminate.
  destruct queue0 as [q|]; cbn; [|discriminate].
  intros H. simplify_eq. cbn.
  assert (Hlt : (ch < length chs)%nat) by (eapply lookup_lt_Some; eauto).
  rewrite list_lookup_insert_eq by assumption. cbn.
  by rewrite bool_decide_eq_false_2.
Qed.

(** ** [init] and [NewComponent] *)

(** X3. With a positive interval [init] returns the first error in the
    order of its steps: cluster configuration, cluster client, operator
    client (each wrapped), Loki client, namespace selector, rule selector
    (each as it comes), or [nil]. The ticker is reset between the clients
    and the selectors: a configuration rejected for a selector has already
    changed the period of the ticker, one rejected for a client has not. *)
Theorem init_returns_first_error (s : State) :
  0 < SyncInterval (args (comp s)) ->
  let a := args (comp s) in
  exists s',
    init env s = Ok (initError env (inits s) a) s' /\
    match clientConstructionError env (inits s) a with
    | Some _ =>
        ticker (comp s') = ticker (comp s) /\
        trace s' = trace s ++ [LogInfo "initializing with new configuration"]
    | None =>
        ticker (comp s') = SyncInterval a /\
        trace s' = trace s ++ [LogInfo "initializing with new configuration";
                               TickerReset (SyncInterval a)]
    end.
Proof.
  destruct s as [c chs qs i n t]; destruct c; cbn.
  intros Hpos. unfold initError, clientConstructionError, init, ticker_Reset.
  unfold_go; cbn.
  repeat (split_step; cbn in *); simplify_eq; try lia;
    eexists; (split; [reflexivity|]); cbn; trace_norm; by split.
Qed.

(** X4. Whatever [init] does - return [nil], return an error, or panic in
    the ticker - it leaves the generation alone: the channels, the
    component's stop channel and queue, the current state, the counter,
    the health and the arguments are as before, no [startup] was entered,
    and all it did to the outside is its log line and at most one reset of
    the ticker. *)
Theorem init_leaves_generation (s : State) :
  let s' := final (init env s) in
  chans s' = chans s /\ queues s' = queues s /\ startups s' = startups s /\
  informerStopChan (comp s') = informerStopChan (comp s) /\
  queue (comp s') = queue (comp s) /\
  currentState (comp s') = currentState (comp s) /\
  configUpdatesTotal (comp s') = configUpdatesTotal (comp s) /\
  health (comp s') = health (comp s) /\
  args (comp s') = args (comp s) /\
  inits s' = S (inits s) /\
  (trace s' = trace s ++ [LogInfo "initializing with new configuration"] \/
   trace s' = trace s ++ [LogInfo "initializing with new configuration";
                          TickerReset (SyncInterval (args (comp s)))]).
Proof.
  destruct s as [c ch q i n t]; destruct c.
  unfold init, ticker_Reset; unfold_go; cbn.
  repeat (split_step; cbn); trace_norm; repeat split; auto.
Qed.


(** ** Generations that are never stopped *)

(** A state whose stop channel was just made, with a queue, is live. *)
Lemma live_new_chan (c : Component) (chs : list bool) (q qs i n : nat)
    (t : list Action) :
  informerStopChan c = Some (length chs) ->
  queue c = Some q ->
  live {| comp := c; chans := chs ++ [false]; queues := qs; inits := i;
          startups := n; trace := t |} = true.
Proof.
  intros Hc Hq. unfold live, stopChanOpen; cbn.
  rewrite Hc, Hq, lookup_new_chan.
  by rewrite !bool_decide_eq_true_2 by (by eauto).
Qed.

(** X6. A [startup] that fails stops nothing of what it started. The new
    stop channel is the component's and is still open, so the generation
    is live; when the namespace handler was registered, the namespace
    informer factory was started on that channel, and it keeps running. No
    event loop was launched. *)
Theorem failed_startup_keeps_informers (s s' : State) (e : error) :
  startup env s = Ok (Some e) s' ->
  let q := queues s in
  let ch := length (chans s) in
  informerStopChan (comp s') = Some ch /\
  queue (comp s') = Some q /\
  chans s' = chans s ++ [false] /\
  live s' = true /\
  exists t,
    trace s' = trace s ++ t /\
    closes t = [] /\ drains t = [] /\ launches t = [] /\
    (NamespaceInformerAddEventHandler env (startups s) = None ->
     NamespaceFactoryStart (Some ch) ∈ t).
Proof.
  destruct s as [c chs qs i n t]; destruct c.
  unfold_startup; unfold_go; cbn.
  repeat (split_step; cbn); intros H; simplify_eq; cbn;
    (split; [reflexivity|]); (split; [reflexivity|]); (split; [reflexivity|]);
    (split; [by eapply live_new_chan|]);
    eexists; trace_norm; (split; [reflexivity|]); repeat split;
    intros Hns; try discriminate; in_trace.
Qed.

(** What one [startup] adds, whatever it returns. *)
Lemma startup_closes_nothing (s : State) :
  exists r s' t,
    startup env s = Ok r s' /\
    trace s' = trace s ++ t /\
    closes t = [] /\ drains t = [] /\
    chans s' = chans s ++ [false] /\
    queues s' = S (queues s) /\
    startups s' = S (startups s) /\
    informerStopChan (comp s') = Some (length (chans s)).
Proof.
  destruct s as [c chs qs i n t]; destruct c.
  unfold_startup; unfold_go; cbn.
  repeat (split_step; cbn);
    eexists _, _, _; (split; [reflexivity|]); cbn; trace_norm;
    (split; [reflexivity|]); by repeat split.
Qed.

(** X7. The startup loop of [Run] never closes a stop channel and never
    shuts a queue down. Each of its [k] attempts made one channel and one
    queue, and all [k] channels are still open when the loop goes on; the
    component holds the last. So after a failed attempt the second loop is
    entered with the channels of abandoned generations open, and whatever
    informers were started on them running. *)
Theorem startup_loop_stops_nothing (fuel : nat) (b : Backoff) (s : State) :
  exists r s' t k,
    startupLoop env fuel b s = Ok r s' /\
    trace s' = trace s ++ t /\
    closes t = [] /\ drains t = [] /\
    startups s' = (startups s + k)%nat /\
    chans s' = chans s ++ replicate k false /\
    queues s' = (queues s + k)%nat /\
    match r with
    | Some _ =>
        (0 < k)%nat /\
        informerStopChan (comp s') = Some (length (chans s) + k - 1)%nat
    | None => k = fuel
    end.
Proof.
  revert b s. induction fuel as [|fuel IH]; intros b s.
  - exists None, s, [], 0%nat. cbn. rewrite !app_nil_r, !Nat.add_0_r. by repeat split.
  - rewrite startupLoop_step.
    destruct (startup_closes_nothing s)
      as (r & s1 & t1 & Hst & Ht1 & Hc1 & Hd1 & Hch1 & Hq1 & Hn1 & Hcur1).
    rewrite Hst. destruct r as [e|].
    + destruct (IH {| cfg := cfg b; numRetries := S (numRetries b) |}
                  (afterFailedAttempt e b s1))
        as (r' & s' & t' & k & Hloop & Ht' & Hc' & Hd' & Hn' & Hch' & Hq' & Hr').
      destruct (afterFailedAttempt_frame e b s1) as (Hft & Hfn & _).
      assert (Hfch : chans (afterFailedAttempt e b s1) = chans s1 /\
                     queues (afterFailedAttempt e b s1) = queues s1)
        by (by destruct s1).
      destruct Hfch as (Hfch & Hfq).
      exists r', s',
        (t1 ++ [LogError "starting up component failed" e; ReportUnhealthy e;
                BackoffWait (cfg b) (numRetries b)] ++ t'), (S k).
      split; [assumption|].
      split; [rewrite Ht', Hft, Ht1; trace_norm; reflexivity|].
      unfold closes, drains in *. rewrite !omap_app; cbn.
      rewrite Hc1, Hd1, Hc', Hd'.
      split; [reflexivity|]. split; [reflexivity|].
      split; [lia|]. split; [|split; [lia|]].
      * rewrite Hch', Hfch, Hch1. cbn. by rewrite <- app_assoc.
      * destruct r' as [[]|]; [|lia].
        destruct Hr' as (Hk & Hcur). split; [lia|].
        rewrite Hcur, Hfch, Hch1, length_app. cbn. f_equal. lia.
    + exists (Some tt), s1, t1, 1%nat. cbn.
      repeat split; try assumption; try lia.
      rewrite Hcur1. f_equal. lia.
Qed.

(** ** One generation at a time in the second loop *)

(** Where the channels can be after a [shutdown] and after an update,
    whatever the outcome: untouched, the component's channel closed, or
    that channel closed and a new one made and taken. *)
Lemma shutdown_channels (s : State) :
  let s' := final (shutdown s) in
  informerStopChan (comp s') = informerStopChan (comp s) /\
  (chans s' = chans s \/
   exists ch, informerStopChan (comp s) = Some ch /\
              chans s' = <[ch:=true]> (chans s)).
Proof.
  destruct s as [c chs qs i n t]; destruct c.
  unfold_all; cbn.
  repeat (split_step; cbn); (split; [reflexivity|]);
    first [ by left | right; by eexists ].
Qed.

Lemma onConfigUpdate_channels (u : ConfigUpdate) (s : State) :
  let s' := final (onConfigUpdate env u s) in
  (chans s' = chans s /\ informerStopChan (comp s') = informerStopChan (comp s)) \/
  exists ch,
    informerStopChan (comp s) = Some ch /\
    ((chans s' = <[ch:=true]> (chans s) /\ informerStopChan (comp s') = Some ch) \/
     (chans s' = <[ch:=true]> (chans s) ++ [false] /\
      informerStopChan (comp s') = Some (length (chans s)))).
Proof.
  destruct s as [c chs qs i n t]; destruct c; destruct u as [a errChan].
  unfold_all; cbn.
  repeat (split_step; cbn);
    first [ by left
          | right; eexists; split; [reflexivity|]; by left
          | right; eexists; split; [reflexivity|]; right;
            by rewrite length_insert ].
Qed.

(** Closing the only channel that may be open leaves none open. *)
Lemma close_only_open (chs : list bool) (cur : option nat) (ch c : nat) :
  (forall c', chs !! c' = Some false -> cur = Some c') ->
  cur = Some ch ->
  <[ch:=true]> chs !! c <> Some false.
Proof.
  intros Honly Hcur Hc.
  destruct (decide (ch = c)) as [<-|Hne].
  - assert (Hlt : (ch < length chs)%nat).
    { apply lookup_lt_Some in Hc. by rewrite length_insert in Hc. }
    rewrite list_lookup_insert_eq in Hc by assumption. discriminate.
  - rewrite list_lookup_insert_ne in Hc by assumption.
    apply Honly in Hc. congruence.
Qed.

(** The readings go through [bind]. *)
Lemma final_bind {A B} (m : M A) (k : A -> M B) (s : State) :
  final (bind m k s)
  = match m s with
    | Ok a s' => final (k a s')
    | Panic _ s' => s'
    end.
Proof. unfold bind. by destruct (m s). Qed.

Lemma onlyCurrentOpen_shutdown (s : State) :
  onlyCurrentOpen s -> onlyCurrentOpen (final (shutdown s)).
Proof.
  intros Honly. destruct (shutdown_channels s) as (Hc & [Hch|(ch & Hcur & Hch)]);
    intros c; rewrite Hc.
  - rewrite Hch. apply Honly.
  - rewrite Hch. intros Hopen. by destruct (close_only_open _ _ ch c Honly Hcur).
Qed.

Lemma onlyCurrentOpen_onConfigUpdate (u : ConfigUpdate) (s : State) :
  onlyCurrentOpen s -> onlyCurrentOpen (final (onConfigUpdate env u s)).
Proof.
  intros Honly.
  destruct (onConfigUpdate_channels u s)
    as [(Hch & Hc)|(ch & Hcur & [(Hch & Hc)|(Hch & Hc)])]; intros c; rewrite Hc, Hch.
  - rewrite <- Hc. rewrite Hc. apply Honly.
  - intros Hopen. by destruct (close_only_open _ _ ch c Honly Hcur).
  - intros Hopen. apply lookup_app_Some in Hopen as [Hopen|(Hge & Hopen)].
    + by destruct (close_only_open _ _ ch c Honly Hcur).
    + rewrite length_insert in Hge, Hopen.
      apply list_lookup_singleton_Some in Hopen as [Hz _]. f_equal. lia.
Qed.

(** X8. In the second loop of [Run] at most one generation is in place at
    any time. If the only stop channel that may be open is the component's
    when the loop is entered, that is so again when the loop returns, waits
    in its [select] or panics, whatever it received: an update closes the
    channel of the prior generation before it makes the next. *)
Theorem second_loop_keeps_one_generation (msgs : list Msg) (s : State) :
  onlyCurrentOpen s ->
  onlyCurrentOpen (final (runLoop env msgs s)).
Proof.
  revert s. induction msgs as [|m msgs IH]; intros s Honly; [exact Honly|].
  destruct m as [u| |]; cbn [runLoop]; rewrite final_bind.
  - pose proof (onlyCurrentOpen_onConfigUpdate u s Honly) as H.
    destruct (onConfigUpdate env u s) as [[] s1|msg s1]; [by apply IH | exact H].
  - pose proof (onlyCurrentOpen_shutdown s Honly) as H.
    by destruct (shutdown s) as [[] s1|msg s1].
  - assert (H : onlyCurrentOpen (final (onTick s))).
    { destruct (onTick_trace s) as (t & _).
      assert (Hsame : chans (final (onTick s)) = chans s /\
                      comp (final (onTick s)) = comp s).
      { destruct s as [c chs qs i n tr]; destruct c. unfold_all; cbn.
        by destruct queue0. }
      destruct Hsame as (Hch & Hcomp). intros c. rewrite Hch, Hcomp. apply Honly. }
    destruct (onTick s) as [[] s1|msg s1]; [by apply IH | exact H].
Qed.

(** ** After an update that reached [startup] *)

(** An update that entered [startup] leaves a live generation, whether
    [startup] returned [nil] or an error. *)
Lemma reached_startup_is_live (s s' : State) (u : ConfigUpdate) :
  onConfigUpdate env u s = Ok tt s' ->
  startups s' = S (startups s) ->
  live s' = true.
Proof.
  destruct s as [c chs qs i n t]; destruct c; destruct u as [a errChan].
  unfold_all; cbn.
  repeat (split_step; cbn); intros H; simplify_eq; cbn; intros Hn; try lia;
    by eapply live_new_chan.
Qed.

(** X9. An update that reached [startup] - whether [startup] then
    returned [nil] or an error, and unlike an update that failed in [init]
    - leaves the loop serviceable. The generation that [startup] made is
    live: a cancellation that follows shuts it down and [Run]'s loop
    returns [nil], and a further update with a positive interval is
    processed and answered once on its own channel. *)
Theorem update_reaching_startup_is_recoverable (s s' : State)
    (u u' : ConfigUpdate) (rest : list Msg) :
  onConfigUpdate env u s = Ok tt s' ->
  startups s' = S (startups s) ->
  0 < SyncInterval (cu_args u') ->
  live s' = true /\
  (exists s2, runLoop env (CtxDone :: rest) s' = Ok (Returned None) s2) /\
  (exists r s2 t,
     onConfigUpdate env u' s' = Ok tt s2 /\
     trace s2 = trace s' ++ t /\
     all_sends t = [(cu_err u', r)]).
Proof.
  intros Hu Hn Hpos.
  pose proof (reached_startup_is_live s s' u Hu Hn) as Hlive.
  destruct (live_inv s' Hlive) as (ch & q & Hc & Hopen & Hq).
  split; [assumption|]. split.
  - exists (afterShutdown ch q s'). cbn [runLoop]. unfold bind.
    by rewrite (shutdown_live s' ch q Hc Hopen Hq).
  - destruct (onConfigUpdate_live s' u' ch q Hc Hopen Hq Hpos)
      as (r & s2 & t & Hu2 & Ht & Hs & _).
    exists r, s2, ([ConfigUpdatesTotalInc; CloseStopChan ch;
                    QueueShutDownWithDrain q] ++ t).
    split; [assumption|]. split; [assumption|].
    by rewrite all_sends_app.
Qed.

(** ** A whole run *)

(** X10. When [Run] is back at its [select] after the messages [msgs],
    every update among them was answered exactly once, in the order
    received and on its own response channel, and the counter of
    configuration updates has grown by their number. *)
Theorem run_answers_updates_in_order (fuel : nat) (msgs : list Msg)
    (s s1 : State) :
  Run env fuel msgs s = Ok Selecting s1 ->
  exists t,
    trace s1 = trace s ++ t /\
    (all_sends t).*1 = cu_err <$> updates msgs /\
    configUpdatesTotal (comp s1)
      = (configUpdatesTotal (comp s) + length (updates msgs))%nat.
Proof.
  unfold Run, bind.
  destruct (startupLoop_outcome fuel (backoff_New startupBackoffConfig) s)
    as (r & s0 & t0 & n0 & Hloop & Ht0 & Hs0 & _ & _ & _ & Hcnt & _ & _ & _ & Hmatch).
  rewrite Hloop. destruct r as [[]|]; [|discriminate].
  destruct Hmatch as (_ & _ & Hrun & _). intros Hsel.
  apply andb_true_iff in Hrun as [Hlive _].
  destruct (live_inv s0 Hlive) as (ch0 & q0 & _ & _ & Hq0).
  destruct (runLoop_selecting msgs s0 s1) as (t & Ht & _ & Hs & Hc & _);
    [by eexists | assumption |].
  exists (t0 ++ t). split; [by rewrite Ht, Ht0, app_assoc|].
  rewrite all_sends_app, Hs0. cbn [app]. split; [assumption|]. by rewrite Hc, Hcnt.
Qed.

(** ** An interval that is not positive *)

(** X15. An update whose sync interval is zero or negative, and whose
    clients can be built, takes the loop down: the prior generation is
    shut down, [init] logs its line, and the reset of the ticker panics.
    Nothing is sent on the caller's channel, nothing is reported, the
    ticker keeps its period, and no [startup] is entered. *)
Theorem nonpositive_interval_update_panics (s : State) (u : ConfigUpdate)
    (ch q : nat) :
  informerStopChan (comp s) = Some ch ->
  chans s !! ch = Some false ->
  queue (comp s) = Some q ->
  clientConstructionError env (inits s) (cu_args u) = None ->
  SyncInterval (cu_args u) <= 0 ->
  exists s',
    onConfigUpdate env u s = Panic "non-positive interval for Ticker.Reset" s' /\
    trace s' = trace s ++
      [ ConfigUpdatesTotalInc; CloseStopChan ch; QueueShutDownWithDrain q;
        LogInfo "initializing with new configuration" ] /\
    chans s' = <[ch:=true]> (chans s) /\
    ticker (comp s') = ticker (comp s) /\
    health (comp s') = health (comp s) /\
    args (comp s') = cu_args u /\
    startups s' = startups s.
Proof.
  destruct s as [c chs qs i n t]; destruct c; destruct u as [a errChan]; cbn.
  intros -> Hopen ->.
  unfold clientConstructionError, ticker_Reset.
  unfold_all; cbn. rewrite Hopen; cbn.
  repeat (split_step; cbn in *); intros H Hle; simplify_eq; try lia;
    eexists; (split; [reflexivity|]); cbn; trace_norm; by repeat split.
Qed.

(** ** Callers of [Update] and the loop on its own *)

(** One more message for a loop that is at its [select]. *)
Lemma runLoop_snoc (pre : list Msg) (m : Msg) (s0 s1 : State) :
  runLoop env pre s0 = Ok Selecting s1 ->
  runLoop env (pre ++ [m]) s0 = runLoop env [m] s1.
Proof. apply runLoop_app. Qed.

Lemma callsOf_insert (calls : list Arguments) (lp lp' : Loop) (cs : list Caller)
    (s s' : State) (ch : nat) (c : Caller) :
  (forall u, c <> Sending u) ->
  callsOf calls {| loop := lp; callers := cs; st := s |} ->
  callsOf calls {| loop := lp'; callers := <[ch:=c]> cs; st := s' |}.
Proof.
  intros Hc (Hlen & Hs). split; cbn in *; [by rewrite length_insert|].
  intros ch' u Hl. apply list_lookup_insert_Some in Hl as [(_ & Hl & _)|[_ Hl]].
  - by destruct (Hc u).
  - by apply Hs.
Qed.

Lemma exec_agrees (sched : list Label) (calls : list Arguments)
    (pre : list Msg) (s0 : State) (sys sys' : System) :
  callsOf calls sys ->
  agrees env pre s0 sys ->
  exec env sched sys = Some sys' ->
  agrees env (pre ++ received calls sched) s0 sys'.
Proof.
  revert calls pre sys.
  induction sched as [|l sched IH]; intros calls pre sys Hcalls Hag.
  - cbn. intros H. simplify_eq. by rewrite app_nil_r.
  - cbn [exec]. destruct (step env l sys) as [sys1|] eqn:Hstep; [|discriminate].
    intros Hexec. destruct sys as [lp cs s].
    destruct l as [a|ch|ch| |]; unfold Update in Hstep;
      cbn [step loop callers st] in Hstep; cbn [received].
    + simplify_eq. eapply IH; [| |exact Hexec]; [|exact Hag].
      destruct Hcalls as (Hlen & Hs). split; cbn in *.
      * by rewrite !length_app, Hlen.
      * intros ch u Hl. apply lookup_app_Some in Hl as [Hl|(Hge & Hl)].
        -- destruct (Hs ch u Hl) as (Hc & He). split; [|assumption].
           rewrite lookup_app_l; [assumption|]. by eapply lookup_lt_Some.
        -- apply list_lookup_singleton_Some in Hl as [Hz Hu].
           injection Hu as <-. cbn [cu_args cu_err].
           assert (ch = length calls) as -> by lia.
           split; [by apply list_lookup_middle|assumption].
    + destruct lp; try discriminate. unfold agrees in Hag; cbn in Hag.
      destruct (cs !! ch) as [[u| |]|] eqn:Hch; try discriminate.
      destruct (proj2 Hcalls ch u Hch) as (Hc & He). rewrite Hc.
      assert (Hu : {| cu_args := cu_args u; cu_err := ch |} = u)
        by (destruct u; cbn in *; by subst).
      rewrite Hu.
      pose proof (runLoop_snoc pre (RecvConfigUpdate u) s0 s Hag) as Hsn.
      cbn [runLoop] in Hsn. unfold bind in Hsn.
      replace (pre ++ RecvConfigUpdate u :: received calls sched)
        with ((pre ++ [RecvConfigUpdate u]) ++ received calls sched)
        by (by rewrite <- app_assoc).
      destruct (onConfigUpdate env u s) as [[] s1|msg s1] eqn:Hupd.
      * destruct (pendingSend s1) as [[e r]|]; [|discriminate]. simplify_eq.
        eapply IH; [| |exact Hexec]; [|exact Hsn].
        eapply callsOf_insert; [|exact Hcalls]. discriminate.
      * simplify_eq. eapply IH; [| |exact Hexec]; [|exact Hsn].
        eapply callsOf_insert; [|exact Hcalls]. discriminate.
    + destruct lp as [|e r| |]; try discriminate.
      destruct (cs !! ch) as [[|e'|]|] eqn:Hch; try discriminate.
      destruct (decide (e = e')); [|discriminate]. simplify_eq.
      eapply IH; [| |exact Hexec]; [|exact Hag].
      eapply callsOf_insert; [|exact Hcalls]. discriminate.
    + destruct lp; try discriminate. unfold agrees in Hag; cbn in Hag.
      pose proof (runLoop_snoc pre TickerC s0 s Hag) as Hsn.
      cbn [runLoop] in Hsn. unfold bind in Hsn.
      replace (pre ++ TickerC :: received calls sched)
        with ((pre ++ [TickerC]) ++ received calls sched)
        by (by rewrite <- app_assoc).
      destruct (onTick s) as [[] s1|msg s1]; simplify_eq;
        (eapply IH; [| |exact Hexec]; [exact Hcalls|exact Hsn]).
    + destruct lp; try discriminate. unfold agrees in Hag; cbn in Hag.
      pose proof (runLoop_snoc pre CtxDone s0 s Hag) as Hsn.
      cbn [runLoop] in Hsn. unfold bind in Hsn.
      replace (pre ++ CtxDone :: received calls sched)
        with ((pre ++ [CtxDone]) ++ received calls sched)
        by (by rewrite <- app_assoc).
      destruct (shutdown s) as [[] s1|msg s1]; simplify_eq;
        (eapply IH; [| |exact Hexec]; [exact Hcalls|exact Hsn]).
Qed.

(** X12. Calls of [Update] from other goroutines, however they interleave
    with the loop, leave the component exactly where the loop on its own
    leaves it when it receives the same updates, ticks and cancellation in
    the order it took them: at its [select] in the same state, returned
    with the same result, or panicked with the same message. *)
Theorem concurrent_updates_agree_with_loop (s : State) (sched : list Label)
    (sys : System) :
  exec env sched (atSelect s) = Some sys ->
  match loop sys with
  | AtSelect | SendingErr _ _ =>
      runLoop env (received [] sched) s = Ok Selecting (st sys)
  | Exited r => runLoop env (received [] sched) s = Ok (Returned r) (st sys)
  | Crashed msg => runLoop env (received [] sched) s = Panic msg (st sys)
  end.
Proof.
  intros Hexec.
  apply (exec_agrees sched [] [] s (atSelect s) sys); [| reflexivity | exact Hexec].
  split; [reflexivity|]. intros ch u Hl. by simplify_eq.
Qed.

(** X13. Once [Run] has returned or panicked, a call of [Update] never
    returns: the loop does nothing more, the component stays as it is, the
    callers there were are where they were, and every later caller is
    blocked in its send for good. *)
Theorem update_after_run_stopped_blocks (sched : list Label) (sys sys' : System) :
  stopped (loop sys) = true ->
  exec env sched sys = Some sys' ->
  loop sys' = loop sys /\
  st sys' = st sys /\
  exists us, callers sys' = callers sys ++ (Sending <$> us).
Proof.
  revert sys. induction sched as [|l sched IH]; intros sys Hstop.
  - cbn. intros H. simplify_eq. repeat split. exists []. by rewrite app_nil_r.
  - cbn [exec]. destruct (step env l sys) as [sys1|] eqn:Hstep; [|discriminate].
    intros Hexec. destruct sys as [lp cs s]; cbn in Hstop.
    destruct l as [a|ch|ch| |]; unfold Update in Hstep;
      cbn [step loop callers st] in Hstep;
      try (destruct lp; discriminate).
    simplify_eq.
    destruct (IH (Update a {| loop := lp; callers := cs; st := s |}) Hstop Hexec)
      as (Hl & Hs & us & Hc). unfold Update in *. cbn in *.
    repeat split; try assumption.
    eexists (_ :: us). rewrite Hc, <- app_assoc. reflexivity.
Qed.

(** X14. The handshake between a caller and the loop never gets stuck.
    After any schedule from a loop at its [select]: when the loop is at
    its [select] and a caller is sending, the loop can take that update;
    and when the loop is at the send of a result, the caller it is for is
    waiting for it, so the delivery can happen, after which that caller
    has returned the result and the loop is back at its [select]. *)
Theorem update_handshake_never_stuck (s : State) (sched : list Label)
    (sys : System) :
  exec env sched (atSelect s) = Some sys ->
  (forall ch u,
     loop sys = AtSelect -> callers sys !! ch = Some (Sending u) ->
     is_Some (step env (Begin ch) sys)) /\
  (forall e r,
     loop sys = SendingErr e r ->
     exists sys',
       step env (Deliver e) sys = Some sys' /\
       loop sys' = AtSelect /\
       callers sys' !! e = Some (Got r) /\
       st sys' = st sys).
Proof.
  intros Hexec. split.
  - intros ch u Hl Hc. by eapply Begin_enabled.
  - intros e r Hl.
    destruct (exec_Inv s sched sys Hexec) as (new & _ & _ & _ & _ & _ & HL & _).
    pose proof (HL e r Hl) as Hc.
    assert (Hlt : (e < length (callers sys))%nat) by (by eapply lookup_lt_Some).
    unfold step. rewrite Hl, Hc.
    destruct (decide (e = e)); [|congruence].
    eexists. split; [reflexivity|]. cbn.
    by rewrite list_lookup_insert_eq.
Qed.

End Properties.

(** * The properties on the concrete cluster *)

(** C7 at the first startup of a healthy cluster. *)
Lemma startup_steps_in_order_witness :
  exists s',
    startup healthyEnv built = Ok None s' /\
    trace s' = trace built ++
      [ NewQueue 0; MakeStopChan 0;
        NamespaceAddEventHandler (Some 0%nat);
        NamespaceFactoryStart (Some 0%nat); NamespaceWaitForCacheSync (Some 0%nat);
        RuleAddEventHandler (Some 0%nat);
        RuleFactoryStart (Some 0%nat); RuleWaitForCacheSync (Some 0%nat);
        SyncLoki;
        GoEventLoop (Some 0%nat) ].
Proof.
  eexists. split; [vm_compute; reflexivity|].
  refine (proj1 (startup_steps_in_order healthyEnv built _ _)).
  vm_compute; reflexivity.
Defined.



(** C5 on a cluster whose initial sync fails twice. *)
Lemma startup_retried_with_backoff_witness :
  exists s',
    Run flakyEnv 3 [] built = Ok Selecting s' /\
    startups s' = 3%nat /\
    waits (trace s') = [(startupBackoffConfig, 0%nat); (startupBackoffConfig, 1%nat)] /\
    length (reports (trace s')) = 2%nat /\
    launches (trace s') = [queue (comp s')] /\
    Running s' = true.
Proof.
  destruct (startup_retried_with_backoff flakyEnv 2 3 [] built)
    as (_ & (s' & t & Hrun & Ht & Hn & Hw & Hr & Hl & _ & _ & Hrunning) & _).
  - intros k Hk. right; right. intros st.
    destruct k as [|[|k]]; [vm_compute; discriminate ..|lia].
  - repeat split; intros; vm_compute; reflexivity.
  - lia.
  - exists s'. split; [exact Hrun|]. split; [exact Hn|].
    assert (Hb : waits (trace built) = [] /\ reports (trace built) = [] /\
                 launches (trace built) = []) by (vm_compute; auto).
    destruct Hb as (Hb1 & Hb2 & Hb3).
    rewrite Ht, waits_app, reports_app, launches_app, Hb1, Hb2, Hb3, Hw, Hl.
    cbn [app]. rewrite Hr. repeat split. exact Hrunning.
Defined.

(** C9 at a loop that has applied one update: the tick after it. *)
Lemma tick_enqueues_one_full_sync_witness :
  tickerOK built /\
  exists s1 q s2,
    Run healthyEnv 1 [RecvConfigUpdate (otherUpdate 7)] built = Ok Selecting s1 /\
    queue (comp s1) = Some q /\
    Run healthyEnv 1 ([RecvConfigUpdate (otherUpdate 7)] ++ [TickerC]) built
      = Ok Selecting s2 /\
    trace s2 = trace s1 ++ [QueueAdd q syncLokiEvent] /\
    comp s2 = comp s1 /\
    ticker (comp s1) = 30 * Second.
Proof.
  split; [reflexivity|].
  destruct (tick_enqueues_one_full_sync healthyEnv 1
              [RecvConfigUpdate (otherUpdate 7)] built
              (final (Run healthyEnv 1 [RecvConfigUpdate (otherUpdate 7)] built)))
    as (q & s2 & t & Hq & Hrun & Ht2 & Hcomp & _ & Ht & Htick & _).
  - reflexivity.
  - vm_compute; reflexivity.
  - eexists _, q, s2. split; [vm_compute; reflexivity|].
    repeat (split; [assumption|]).
    vm_compute in Ht. simplify_eq. apply Htick. vm_compute; reflexivity.
Defined.

(** C9 as the spec states it fails after an update whose clients cannot be
    built: the arguments in force ask for a sync every thirty seconds, the
    ticker that fires still runs at five, and the tick adds its event to a
    queue that was shut down. After an update rejected for its selector
    the ticker runs at the rejected interval. *)
Lemma tick_period_after_failed_update :
  exists s1 s2 s3,
    Run clusterGoneEnv 1 [RecvConfigUpdate (otherUpdate 7)] built = Ok Selecting s1 /\
    all_sends (trace s1)
      = [(7%nat, Some "failed to get k8s config: no kubeconfig")] /\
    SyncInterval (args (comp s1)) = 30 * Second /\
    ticker (comp s1) = 5 * Second /\
    ~ tickerOK s1 /\
    Run clusterGoneEnv 1 [RecvConfigUpdate (otherUpdate 7); TickerC] built
      = Ok Selecting s2 /\
    trace s2 = trace s1 ++ [QueueAdd 0 syncLokiEvent] /\
    QueueShutDownWithDrain 0 ∈ trace s1 /\
    Run healthyEnv 1 [RecvConfigUpdate (slowBadUpdate 7)] built = Ok Selecting s3 /\
    all_sends (trace s3) = [(7%nat, Some "unable to parse selector")] /\
    SyncInterval goodArgs = 5 * Second /\
    ticker (comp s3) = 30 * Second.
Proof.
  eexists _, _, _. split; [vm_compute; reflexivity|].
  repeat (split; [vm_compute; reflexivity|]).
  split; [intros H; vm_compute in H; discriminate|].
  repeat (split; [vm_compute; reflexivity|]).
  split; [vm_compute; repeat constructor|].
  repeat split; vm_compute; reflexivity.
Qed.

(** C2 at a running loop that receives a selector that does not parse. *)
Lemma failed_update_surfaced_after_shutdown_witness :
  Running running = true /\
  exists s' ch q t,
    onConfigUpdate healthyEnv (badUpdate 7) running = Ok tt s' /\
    informerStopChan (comp running) = Some ch /\
    queue (comp running) = Some q /\
    trace s' = trace running ++ [ConfigUpdatesTotalInc; CloseStopChan ch;
                                 QueueShutDownWithDrain q] ++ t /\
    all_sends t = [(7%nat, Some "unable to parse selector")] /\
    health (comp s') = HealthTypeUnhealthy "unable to parse selector" /\
    chans s' !! ch = Some true /\
    args (comp s') = badSelectorArgs.
Proof.
  split; [vm_compute; reflexivity|].
  destruct (failed_update_surfaced_after_shutdown healthyEnv running
              (final (onConfigUpdate healthyEnv (badUpdate 7) running))
              (badUpdate 7) "unable to parse selector")
    as (ch & q & t & Hc & Hq & Ht & Hs & _ & Hh & Hcl & Ha & _).
  - vm_compute; reflexivity.
  - vm_compute; reflexivity.
  - vm_compute; reflexivity.
  - vm_compute; reflexivity.
  - eexists _, ch, q, t. split; [vm_compute; reflexivity|]. by repeat split.
Defined.

(** C2 as the spec states it fails at that input: the error is sent to the
    caller, but the prior generation is stopped, its queue shut down, and
    the arguments in force are the rejected ones. *)
Lemma failed_update_leaves_prior_generation :
  Running running = true /\
  exists s',
    onConfigUpdate healthyEnv (badUpdate 7) running = Ok tt s' /\
    last (trace s') = Some (SendErr 7 (Some "unable to parse selector")) /\
    args (comp running) = goodArgs /\
    args (comp s') = badSelectorArgs /\
    informerStopChan (comp s') = Some 0%nat /\
    chans s' !! 0%nat = Some true /\
    QueueShutDownWithDrain 0 ∈ drop (length (trace running)) (trace s') /\
    ~ staysOnPriorGeneration running s'.
Proof.
  split; [vm_compute; reflexivity|].
  eexists. split; [vm_compute; reflexivity|].
  repeat (split; [vm_compute; reflexivity|]).
  split.
  - vm_compute. repeat constructor.
  - intros (Ha & _). vm_compute in Ha. discriminate.
Qed.

(** C6 where the cluster configuration cannot be read: at construction,
    and in an update to a running loop. *)
Lemma client_failure_returned_not_retried_witness :
  clientConstructionError noClusterEnv (inits blank) goodArgs
    = Some "failed to get k8s config: no kubeconfig" /\
  Running running = true /\
  exists s',
    NewComponent noClusterEnv goodArgs blank
      = Ok (None, Some "initializing component failed: failed to get k8s config: no kubeconfig") s' /\
    trace s' = trace blank ++ [LogInfo "initializing with new configuration"].
Proof.
  split; [reflexivity|]. split; [vm_compute; reflexivity|].
  refine (proj1 (client_failure_returned_not_retried noClusterEnv goodArgs 7
                   blank running
                   "failed to get k8s config: no kubeconfig"
                   "failed to get k8s config: no kubeconfig" _ _ _ _));
    vm_compute; reflexivity.
Defined.

(** C6 as the spec states it fails there: the component does not come to
    exist, and nothing was reported or waited for. *)
Lemma client_failure_prevents_construction :
  exists s',
    NewComponent noClusterEnv goodArgs blank
      = Ok (None, Some "initializing component failed: failed to get k8s config: no kubeconfig") s' /\
    reports (trace s') = [] /\
    waits (trace s') = [] /\
    startups s' = 0%nat.
Proof.
  eexists. split; [vm_compute; reflexivity|]. by repeat split.
Qed.

(** C3 at its failing input: after an update that failed in [init], the
    cancellation of the context panics. *)
Lemma cancel_after_failed_update_panics :
  exists s',
    Run healthyEnv 1 [RecvConfigUpdate (badUpdate 7); CtxDone] built
      = Panic "close of closed channel" s' /\
    all_sends (trace s') = [(7%nat, Some "unable to parse selector")].
Proof.
  eexists. split; [vm_compute; reflexivity|]. reflexivity.
Qed.

(** C1 at its failing input: the update after one that failed in [init] is
    counted and then panics; nothing is ever sent on its channel. *)
Lemma update_after_failed_update_unanswered :
  exists s',
    Run healthyEnv 1 [RecvConfigUpdate (badUpdate 7); RecvConfigUpdate (otherUpdate 8)] built
      = Panic "close of closed channel" s' /\
    configUpdatesTotal (comp s') = 2%nat /\
    sends 7 (trace s') = [Some "unable to parse selector"] /\
    sends 8 (trace s') = [].
Proof.
  eexists. split; [vm_compute; reflexivity|]. by repeat split.
Qed.

(** C4 on that schedule. *)
Lemma updates_serialized_witness :
  exists sys,
    exec healthyEnv twoCallers (atSelect running) = Some sys /\
    callers sys = [Got None; Got (Some "unable to parse selector")] /\
    serialized None twoCallers = true /\
    sends 1 (drop (length (trace running)) (trace (st sys)))
      = [Some "unable to parse selector"].
Proof.
  eexists. split; [vm_compute; reflexivity|]. split; [reflexivity|].
  match goal with
  | |- context [st ?sys] =>
      destruct (updates_serialized healthyEnv running twoCallers sys)
        as (Hser & _ & _ & Hgot); [vm_compute; reflexivity|]
  end.
  split; [exact Hser|].
  apply (Hgot 1%nat (Some "unable to parse selector")). reflexivity.
Defined.

(** The second update cannot begin while the first caller still waits for
    its result: the loop is at its send, not at its [select]. *)
Example second_update_waits :
  exec healthyEnv [Call otherArgs; Call badSelectorArgs; Begin 0; Begin 1]
    (atSelect running) = None.
Proof. vm_compute; reflexivity. Qed.

(** X2 at the generation of a running loop. *)
Lemma second_shutdown_panics_witness :
  shutdown running = Ok tt (afterShutdown 0 0 running) /\
  informerStopChan (comp (afterShutdown 0 0 running)) = Some 0%nat /\
  shutdown (afterShutdown 0 0 running)
    = Panic "close of closed channel" (afterShutdown 0 0 running).
Proof.
  split; [vm_compute; reflexivity|].
  destruct (second_shutdown_panics running (afterShutdown 0 0 running))
    as (_ & Hc & Hp); [vm_compute; reflexivity|].
  split; [|exact Hp]. rewrite Hc. vm_compute; reflexivity.
Defined.

(** X3 where the rule selector does not parse: the error comes after the
    reset of the ticker. *)
Lemma init_returns_first_error_witness :
  exists s',
    init healthyEnv rejected = Ok (Some "unable to parse selector") s' /\
    ticker (comp s') = 5 * Second /\
    trace s' = trace rejected ++ [LogInfo "initializing with new configuration";
                                  TickerReset (5 * Second)].
Proof.
  destruct (init_returns_first_error healthyEnv rejected) as (s' & Hi & Hm);
    [vm_compute; reflexivity|].
  exists s'. split; [exact Hi|]. exact Hm.
Defined.


(** X6 at a first startup whose initial sync fails. *)
Lemma failed_startup_keeps_informers_witness :
  exists s' t,
    startup flakyEnv built = Ok (Some "loki unreachable") s' /\
    informerStopChan (comp s') = Some 0%nat /\
    chans s' = [false] /\
    live s' = true /\
    trace s' = trace built ++ t /\
    launches t = [] /\
    NamespaceFactoryStart (Some 0%nat) ∈ t.
Proof.
  destruct (failed_startup_keeps_informers flakyEnv built
              (final (startup flakyEnv built)) "loki unreachable")
    as (Hc & _ & Hch & Hlive & t & Ht & _ & _ & Hl & Hns);
    [vm_compute; reflexivity|].
  eexists _, t. split; [vm_compute; reflexivity|].
  repeat split; try assumption. by apply Hns.
Defined.

(** X8 at a running loop that applies an update, rejects the next and
    panics on the third. *)
Lemma second_loop_keeps_one_generation_witness :
  onlyCurrentOpen running /\
  onlyCurrentOpen
    (final (runLoop healthyEnv
              [RecvConfigUpdate (otherUpdate 7); TickerC;
               RecvConfigUpdate (badUpdate 8); RecvConfigUpdate (otherUpdate 9)]
              running)).
Proof.
  assert (H : onlyCurrentOpen running).
  { intros [|[|c]] Hc; vm_compute in Hc |- *; congruence. }
  split; [exact H|].
  by apply (second_loop_keeps_one_generation healthyEnv).
Defined.

(** X9 at an update whose initial sync fails. *)
Lemma update_reaching_startup_is_recoverable_witness :
  exists s' s2 r s3 t,
    onConfigUpdate syncOnceEnv (otherUpdate 7) running = Ok tt s' /\
    last (trace s') = Some (SendErr 7 (Some "loki unreachable")) /\
    live s' = true /\
    runLoop syncOnceEnv [CtxDone; TickerC] s' = Ok (Returned None) s2 /\
    onConfigUpdate syncOnceEnv (otherUpdate 8) s' = Ok tt s3 /\
    trace s3 = trace s' ++ t /\
    all_sends t = [(8%nat, r)].
Proof.
  destruct (update_reaching_startup_is_recoverable syncOnceEnv running
              (final (onConfigUpdate syncOnceEnv (otherUpdate 7) running))
              (otherUpdate 7) (otherUpdate 8) [TickerC])
    as (Hlive & (s2 & Hcancel) & (r & s3 & t & Hu & Ht & Hs));
    [vm_compute; reflexivity | vm_compute; reflexivity | vm_compute; reflexivity |].
  eexists _, s2, r, s3, t. split; [vm_compute; reflexivity|].
  split; [vm_compute; reflexivity|]. by repeat split.
Defined.

(** X10 at a run that applies two updates with a tick between them. *)
Lemma run_answers_updates_in_order_witness :
  exists s1 t,
    Run healthyEnv 1
      [RecvConfigUpdate (otherUpdate 7); TickerC; RecvConfigUpdate (otherUpdate 8)]
      built = Ok Selecting s1 /\
    trace s1 = trace built ++ t /\
    (all_sends t).*1 = [7%nat; 8%nat] /\
    configUpdatesTotal (comp s1) = 2%nat.
Proof.
  destruct (run_answers_updates_in_order healthyEnv 1
              [RecvConfigUpdate (otherUpdate 7); TickerC;
               RecvConfigUpdate (otherUpdate 8)]
              built
              (final (Run healthyEnv 1
                        [RecvConfigUpdate (otherUpdate 7); TickerC;
                         RecvConfigUpdate (otherUpdate 8)] built)))
    as (t & Ht & Hs & Hn); [vm_compute; reflexivity|].
  eexists _, t. split; [vm_compute; reflexivity|]. by repeat split.
Defined.

(** X12 on the schedule of the two callers. *)
Lemma concurrent_updates_agree_with_loop_witness :
  exists sys,
    exec healthyEnv twoCallers (atSelect running) = Some sys /\
    received [] twoCallers
      = [RecvConfigUpdate (otherUpdate 0); RecvConfigUpdate (badUpdate 1)] /\
    runLoop healthyEnv (received [] twoCallers) running = Ok Selecting (st sys).
Proof.
  eexists. split; [vm_compute; reflexivity|]. split; [reflexivity|].
  match goal with
  | |- context [st ?sys] =>
      exact (concurrent_updates_agree_with_loop healthyEnv running twoCallers sys
               eq_refl)
  end.
Defined.

(** X13 at a loop that returned on the cancellation of its context. *)
Lemma update_after_run_stopped_blocks_witness :
  exec healthyEnv [Cancel] (atSelect running) = Some cancelled /\
  exists sys' us,
    exec healthyEnv [Call otherArgs; Call goodArgs] cancelled = Some sys' /\
    loop sys' = Exited None /\
    callers sys' = Sending <$> us.
Proof.
  split; [vm_compute; reflexivity|].
  destruct (update_after_run_stopped_blocks healthyEnv
              [Call otherArgs; Call goodArgs] cancelled
              (Update goodArgs (Update otherArgs cancelled)))
    as (Hl & _ & us & Hc); [reflexivity | vm_compute; reflexivity |].
  eexists _, us. split; [vm_compute; reflexivity|]. by split.
Defined.

(** X14 where the loop has applied the first caller's update and is at the
    send of its result. *)
Lemma update_handshake_never_stuck_witness :
  exists sys sys',
    exec healthyEnv [Call otherArgs; Call badSelectorArgs; Begin 0]
      (atSelect running) = Some sys /\
    loop sys = SendingErr 0 None /\
    step healthyEnv (Deliver 0) sys = Some sys' /\
    loop sys' = AtSelect /\
    callers sys' !! 0%nat = Some (Got None).
Proof.
  eexists. 
  match goal with
  | |- exists sys', exec _ ?sched _ = Some ?sys /\ _ =>
      unify sys (default (atSelect running)
                   (exec healthyEnv sched (atSelect running)));
      destruct (update_handshake_never_stuck healthyEnv running sched sys)
        as (_ & Hd); [vm_compute; reflexivity|];
      destruct (Hd 0%nat None) as (sys' & Hstep & Hl & Hc & _);
        [vm_compute; reflexivity|];
      exists sys'
  end.
  split; [vm_compute; reflexivity|]. split; [vm_compute; reflexivity|].
  by repeat split.
Defined.

(** X15 at a running loop that receives an interval of zero. *)
Lemma nonpositive_interval_update_panics_witness :
  exists s',
    onConfigUpdate healthyEnv {| cu_args := demoArgs "app=loki" 0; cu_err := 7 |}
      running = Panic "non-positive interval for Ticker.Reset" s' /\
    all_sends (trace s') = [] /\
    chans s' = [true] /\
    ticker (comp s') = 5 * Second.
Proof.
  destruct (nonpositive_interval_update_panics healthyEnv running
              {| cu_args := demoArgs "app=loki" 0; cu_err := 7 |} 0%nat 0%nat)
    as (s' & Hp & Ht & Hch & Htick & _);
    [vm_compute; reflexivity | vm_compute; reflexivity | vm_compute; reflexivity
    | vm_compute; reflexivity | vm_compute; discriminate |].
  exists s'. split; [exact Hp|].
  rewrite Ht, Hch, Htick. by vm_compute.
Defined.
